(** * Page-speed bot: schedule matcher, dispatch queue and worker loop

    A shallow embedding of the TypeScript sources

      - the producer over the table [scheduled_reports] and the producer
        that keeps the schedules in the object [scheduledReports] (both in
        [producer.ts]): [sendToQueue], the [/schedule] handlers, the ticks;
      - the queue worker: [checkPageSpeed], [generatePDFReport],
        [startWorker] and the callback it gives to [channel.consume];
      - [index.ts], the single-process bot whose tick analyses inline (its
        [/schedule] handler is that of the in-memory producer, its
        [checkPageSpeed] that of the worker);

    together with the properties of the dispatch pipeline.

    Conventions.  A JavaScript string is the list of its UTF-16 code units.
    A JavaScript number is [NaN], an infinity or a finite double, kept as
    the rational it is equal to, in lowest terms; what [Number] and
    [JSON.parse] read is rounded to the nearest double ([Number_value]);
    [-0] is identified with [0].  Chat identifiers are integers ([Z]); the
    key of a
    property of [scheduledReports] is identified with the chat identifier
    it is the decimal text of.  Every call into the outside world (Chrome,
    Lighthouse, pdf-lib, the file system, Telegram, the AMQP broker, the
    database) is recorded as an event of a trace, and its outcome is read
    from an explicit environment. *)

From Stdlib Require Import List ZArith NArith QArith Bool Lia String Ascii.
From Stdlib Require Qcanon.
Import ListNotations.

Set Warnings "-register-all".
Local Open Scope Z_scope.

(* ================================================================== *)
(** ** JavaScript strings *)

Module JS.

Definition jsstring := list N.

(** Code units of a Rocq string literal (used for ASCII literals only). *)
Definition js (s : string) : jsstring :=
  map N_of_ascii (list_ascii_of_string s).

Definition jsstring_eqb (a b : jsstring) : bool :=
  if list_eq_dec N.eq_dec a b then true else false.

(** [s.split(sep)] for a separator of one code unit: the pieces between
    the occurrences of [sep]; never empty ([''.split(' ')] is [['']]). *)
Fixpoint split (sep : N) (s : jsstring) : list jsstring :=
  match s with
  | [] => [[]]
  | c :: r =>
      if N.eqb c sep then [] :: split sep r
      else match split sep r with
           | [] => [[c]]
           | t :: ts => (c :: t) :: ts
           end
  end.

(** [!s] for a value that is a string or [undefined]. *)
Definition falsy (o : option jsstring) : bool :=
  match o with
  | None => true
  | Some [] => true
  | Some (_ :: _) => false
  end.

(* ------------------------------------------------------------------ *)
(** *** Numbers *)

Inductive number : Type :=
| NaN
| Infinity (negative : bool)
| Finite (q : Q).

Definition of_Z (z : Z) : number := Finite (inject_Z z).

(** [m * 10^e] as a reduced rational; an integer when [0 <= e]. *)
Definition scale10 (m e : Z) : Q :=
  if 0 <=? e then inject_Z (m * 10 ^ e)
  else Qred (Qmake m (Z.to_pos (10 ^ (- e)))).

(** [floor (log2 (n / d))] for positive [n] and [d]. *)
Definition floor_log2 (n d : Z) : Z :=
  let k := Z.log2 n - Z.log2 d in
  if (if 0 <=? k then d * 2 ^ k <=? n else d <=? n * 2 ^ (- k)) then k
  else k - 1.

(** The integer nearest to [n / d]; of two that are as near, the even
    one. *)
Definition round_half_even (n d : Z) : Z :=
  let q := n / d in
  let r := n mod d in
  if 2 * r <? d then q
  else if d <? 2 * r then q + 1
  else if Z.even q then q else q + 1.

(** [m * 2^e] as a reduced rational; an integer when [0 <= e]. *)
Definition scale2 (m e : Z) : Q :=
  if 0 <=? e then inject_Z (m * 2 ^ e)
  else Qred (Qmake m (Z.to_pos (2 ^ (- e)))).

(** The double nearest to [n / d], for positive [n] and [d]: a
    significand of 53 bits, the exponent of its last bit from [-1074]
    (subnormal numbers) to [971], ties to the even significand, and
    [Infinity] from [2^1024 - 2^970] on. *)
Definition double_of_positive (n d : Z) : number :=
  let e := Z.max (floor_log2 n d - 52) (-1074) in
  let m := if 0 <=? e then round_half_even n (d * 2 ^ e)
           else round_half_even (n * 2 ^ (- e)) d in
  if (971 <? e) || ((e =? 971) && (m =? 2 ^ 53)) then Infinity false
  else Finite (scale2 m e).

Definition negate (x : number) : number :=
  match x with
  | NaN => NaN
  | Infinity s => Infinity (negb s)
  | Finite q => Finite (Qopp q)
  end.

(** The Number value for a real: the double nearest to it.  (For a
    literal of more than 20 significant digits the language leaves a
    choice between two neighbours; this is the correctly rounded one,
    which V8 gives.) *)
Definition Number_value (q : Q) : number :=
  match Qnum q with
  | Z0 => of_Z 0
  | Zpos n => double_of_positive (Zpos n) (QDen q)
  | Zneg n => negate (double_of_positive (Zpos n) (QDen q))
  end.

(** Strict equality [===] on numbers. *)
Definition strict_eq (a b : number) : bool :=
  match a, b with
  | Finite p, Finite q => Qeq_bool p q
  | Infinity s, Infinity t => Bool.eqb s t
  | _, _ => false
  end.

(** [isNaN(v)] for a value that is a number or [undefined]
    ([Number(undefined)] is [NaN]). *)
Definition isNaN (v : option number) : bool :=
  match v with
  | Some NaN => true
  | Some _ => false
  | None => true
  end.

(** [Number.isSafeInteger] on an integer. *)
Definition isSafeInteger (z : Z) : bool :=
  (- (2 ^ 53) <? z) && (z <? 2 ^ 53).

(* ------------------------------------------------------------------ *)
(** *** Digits *)

Definition is_digit (c : N) : bool := (48 <=? c)%N && (c <=? 57)%N.

Definition digit_val (c : N) : Z := Z.of_N c - 48.

(** Value of a run of decimal digits, most significant first. *)
Definition digits_val (ds : list N) : Z :=
  fold_left (fun acc d => acc * 10 + digit_val d) ds 0.

(** The longest prefix of decimal digits, and what follows it. *)
Fixpoint span_digits (s : jsstring) : list N * jsstring :=
  match s with
  | c :: r =>
      if is_digit c then let (ds, rest) := span_digits r in (c :: ds, rest)
      else ([], s)
  | [] => ([], [])
  end.

Definition hex_val (c : N) : option Z :=
  if is_digit c then Some (Z.of_N c - 48)
  else if (97 <=? c)%N && (c <=? 102)%N then Some (Z.of_N c - 87)
  else if (65 <=? c)%N && (c <=? 70)%N then Some (Z.of_N c - 55)
  else None.

(** Value of a string of digits in [radix], continuing from [acc];
    [None] when a character is not a digit of that radix. *)
Fixpoint radix_val (radix : Z) (acc : Z) (s : jsstring) : option Z :=
  match s with
  | [] => Some acc
  | c :: r =>
      match hex_val c with
      | Some d => if d <? radix then radix_val radix (acc * radix + d) r
                  else None
      | None => None
      end
  end.

(* ------------------------------------------------------------------ *)
(** *** [Number(string)] (StringToNumber) *)

(** StrWhiteSpaceChar: WhiteSpace and LineTerminator code units. *)
Definition is_whitespace (c : N) : bool :=
  existsb (N.eqb c)
    [9; 10; 11; 12; 13; 32; 160; 5760; 8232; 8233; 8239; 8287; 12288; 65279]%N
  || ((8192 <=? c)%N && (c <=? 8202)%N).

Fixpoint trim_start (s : jsstring) : jsstring :=
  match s with
  | c :: r => if is_whitespace c then trim_start r else s
  | [] => []
  end.

Definition trim (s : jsstring) : jsstring :=
  rev (trim_start (rev (trim_start s))).

(** An optional sign: whether it is [-], and the rest. *)
Definition take_sign (s : jsstring) : bool * jsstring :=
  match s with
  | 43%N :: r => (false, r)
  | 45%N :: r => (true, r)
  | _ => (false, s)
  end.

(** ExponentPart, optional: the exponent and the rest; [None] when an
    exponent indicator is not followed by digits. *)
Definition take_exponent (s : jsstring) : option (Z * jsstring) :=
  match s with
  | c :: r =>
      if (c =? 101)%N || (c =? 69)%N then
        let (neg, r1) := take_sign r in
        match span_digits r1 with
        | ([], _) => None
        | (ds, rest) =>
            Some ((if neg then - digits_val ds else digits_val ds), rest)
        end
      else Some (0, s)
  | [] => Some (0, [])
  end.

(** StrUnsignedDecimalLiteral other than [Infinity], to the end of the
    string: digits, an optional fraction, an optional exponent. *)
Definition unsigned_decimal (s : jsstring) : option Q :=
  let (ip, r1) := span_digits s in
  let (fp, r2) :=
    match r1 with
    | 46%N :: r => span_digits r
    | _ => ([], r1)
    end in
  match ip ++ fp with
  | [] => None
  | ds =>
      match take_exponent r2 with
      | Some (e, []) =>
          Some (scale10 (digits_val ds) (e - Z.of_nat (List.length fp)))
      | _ => None
      end
  end.

Definition str_decimal (s : jsstring) : number :=
  let (neg, r) := take_sign s in
  if jsstring_eqb r (js "Infinity") then Infinity neg
  else match unsigned_decimal r with
       | Some q => Number_value (if neg then Qopp q else q)
       | None => NaN
       end.

(** NonDecimalIntegerLiteral: [0x], [0o], [0b] prefixes, unsigned. *)
Definition non_decimal (s : jsstring) : option number :=
  match s with
  | 48%N :: p :: ((_ :: _) as ds) =>
      let radix :=
        if (p =? 120)%N || (p =? 88)%N then Some 16
        else if (p =? 111)%N || (p =? 79)%N then Some 8
        else if (p =? 98)%N || (p =? 66)%N then Some 2
        else None in
      match radix with
      | Some b => Some (match radix_val b 0 ds with
                        | Some v => Number_value (inject_Z v)
                        | None => NaN
                        end)
      | None => None
      end
  | _ => None
  end.

Definition Number (s : jsstring) : number :=
  match trim s with
  | [] => of_Z 0
  | t => match non_decimal t with
         | Some n => n
         | None => str_decimal t
         end
  end.

End JS.

(* ================================================================== *)
(** ** JSON: the wire format of the dispatch queue *)

Module JSON.
Import JS.

Inductive value : Type :=
| JNull
| JBool (b : bool)
| JNumber (n : number)
| JString (s : jsstring)
| JArray (elements : list value)
| JObject (members : list (jsstring * value)).

(* ------------------------------------------------------------------ *)
(** *** [JSON.stringify] *)

Definition hex_digit (n : N) : N :=
  if (n <? 10)%N then (48 + n)%N else (87 + n)%N.

(** [\uXXXX] with four lower-case hexadecimal digits. *)
Definition UnicodeEscape (c : N) : jsstring :=
  [92; 117; hex_digit (c / 4096); hex_digit ((c / 256) mod 16);
   hex_digit ((c / 16) mod 16); hex_digit (c mod 16)]%N.

Definition is_leading_surrogate (c : N) : bool :=
  (55296 <=? c)%N && (c <=? 56319)%N.

Definition is_trailing_surrogate (c : N) : bool :=
  (56320 <=? c)%N && (c <=? 57343)%N.

(** One code unit that is not part of a surrogate pair. *)
Definition escape_unit (c : N) : jsstring :=
  if (c =? 8)%N then [92; 98]%N
  else if (c =? 9)%N then [92; 116]%N
  else if (c =? 10)%N then [92; 110]%N
  else if (c =? 12)%N then [92; 102]%N
  else if (c =? 13)%N then [92; 114]%N
  else if (c =? 34)%N then [92; 34]%N
  else if (c =? 92)%N then [92; 92]%N
  else if (c <? 32)%N || is_leading_surrogate c || is_trailing_surrogate c
       then UnicodeEscape c
  else [c].

(** The characters between the quotes: a surrogate pair is copied, a lone
    surrogate is escaped. *)
Fixpoint quote_units (s : jsstring) : jsstring :=
  match s with
  | [] => []
  | c :: r =>
      if is_leading_surrogate c then
        match r with
        | d :: r' =>
            if is_trailing_surrogate d then c :: d :: quote_units r'
            else escape_unit c ++ quote_units r
        | [] => escape_unit c
        end
      else escape_unit c ++ quote_units r
  end.

Definition QuoteJSONString (s : jsstring) : jsstring :=
  (34%N :: quote_units s) ++ [34%N].

(** Decimal digits of [n], least significant first. *)
Fixpoint lsd_digits (fuel : nat) (n : Z) : list N :=
  match fuel with
  | O => []
  | S f =>
      Z.to_N (48 + n mod 10)
      :: (if n <? 10 then [] else lsd_digits f (n / 10))
  end.

Definition decimal_digits (n : Z) : list N :=
  rev (lsd_digits (S (Z.to_nat (Z.log2 n))) n).

(** [Number::toString] of an integer below [10^21] in magnitude. *)
Definition Number_toString (z : Z) : jsstring :=
  if z <? 0 then 45%N :: decimal_digits (- z) else decimal_digits z.

(** [JSON.stringify({ url, chatId })]. *)
Definition stringify_payload (url : jsstring) (chatId : Z) : jsstring :=
  [123; 34]%N ++ js "url" ++ [34; 58]%N ++ QuoteJSONString url
  ++ [44; 34]%N ++ js "chatId" ++ [34; 58]%N ++ Number_toString chatId
  ++ [125]%N.

(* ------------------------------------------------------------------ *)
(** *** [JSON.parse] *)

Definition is_ws (c : N) : bool :=
  (c =? 9)%N || (c =? 10)%N || (c =? 13)%N || (c =? 32)%N.

Fixpoint skip_ws (s : jsstring) : jsstring :=
  match s with
  | c :: r => if is_ws c then skip_ws r else s
  | [] => []
  end.

Definition hex4 (a b c d : N) : option N :=
  match hex_val a, hex_val b, hex_val c, hex_val d with
  | Some x, Some y, Some z, Some w =>
      Some (Z.to_N (((x * 16 + y) * 16 + z) * 16 + w))
  | _, _, _, _ => None
  end.

Definition simple_escape (e : N) : option N :=
  if (e =? 34)%N then Some 34%N
  else if (e =? 92)%N then Some 92%N
  else if (e =? 47)%N then Some 47%N
  else if (e =? 98)%N then Some 8%N
  else if (e =? 102)%N then Some 12%N
  else if (e =? 110)%N then Some 10%N
  else if (e =? 114)%N then Some 13%N
  else if (e =? 116)%N then Some 9%N
  else None.

Definition cons_fst {A B : Type} (a : A) (o : option (list A * B))
  : option (list A * B) :=
  match o with
  | Some (l, b) => Some (a :: l, b)
  | None => None
  end.

(** A string after its opening quote: its code units and what follows the
    closing quote. *)
Fixpoint parse_string_body (s : jsstring) : option (jsstring * jsstring) :=
  match s with
  | [] => None
  | c :: r =>
      if (c =? 34)%N then Some ([], r)
      else if (c =? 92)%N then
        match r with
        | e :: r1 =>
            if (e =? 117)%N then
              match r1 with
              | h1 :: h2 :: h3 :: h4 :: r2 =>
                  match hex4 h1 h2 h3 h4 with
                  | Some u => cons_fst u (parse_string_body r2)
                  | None => None
                  end
              | _ => None
              end
            else
              match simple_escape e with
              | Some u => cons_fst u (parse_string_body r1)
              | None => None
              end
        | [] => None
        end
      else if (c <? 32)%N then None
      else cons_fst c (parse_string_body r)
  end.

(** A JSON number: [-]? int frac? exp?, without superfluous leading
    zeros. *)
Definition parse_number (s : jsstring) : option (number * jsstring) :=
  let (neg, r0) :=
    match s with
    | c :: r => if (c =? 45)%N then (true, r) else (false, s)
    | [] => (false, s)
    end in
  let int_part :=
    match r0 with
    | c :: r =>
        if (c =? 48)%N then Some ([48%N], r)
        else match span_digits r0 with
             | ([], _) => None
             | p => Some p
             end
    | [] => None
    end in
  match int_part with
  | None => None
  | Some (ip, r1) =>
      let frac_part :=
        match r1 with
        | c :: r =>
            if (c =? 46)%N then
              match span_digits r with
              | ([], _) => None
              | p => Some p
              end
            else Some ([], r1)
        | [] => Some ([], r1)
        end in
      match frac_part with
      | None => None
      | Some (fp, r2) =>
          match take_exponent r2 with
          | None => None
          | Some (e, r3) =>
              let q := scale10 (digits_val (ip ++ fp))
                               (e - Z.of_nat (List.length fp)) in
              Some (Number_value (if neg then Qopp q else q), r3)
          end
      end
  end.

(** [s] without the prefix [word], when it has it. *)
Fixpoint strip_prefix (word s : jsstring) : option jsstring :=
  match word, s with
  | [], _ => Some s
  | w :: word', c :: r => if (c =? w)%N then strip_prefix word' r else None
  | _ :: _, [] => None
  end.

Definition literal (word : string) (v : value) (s : jsstring)
  : option (value * jsstring) :=
  match strip_prefix (js word) s with
  | Some r => Some (v, r)
  | None => None
  end.

(** The text after the token [c], which may follow white space. *)
Definition expect (c : N) (s : jsstring) : option jsstring :=
  match skip_ws s with
  | d :: r => if (d =? c)%N then Some r else None
  | [] => None
  end.

Fixpoint parse_value (fuel : nat) (s : jsstring)
  : option (value * jsstring) :=
  match fuel with
  | O => None
  | S f =>
      match skip_ws s with
      | [] => None
      | c :: r =>
          if (c =? 34)%N then
            match parse_string_body r with
            | Some (str, r') => Some (JString str, r')
            | None => None
            end
          else if (c =? 91)%N then
            match expect 93 r with
            | Some r' => Some (JArray [], r')
            | None => match parse_elements f r with
                      | Some (vs, r') => Some (JArray vs, r')
                      | None => None
                      end
            end
          else if (c =? 123)%N then
            match expect 125 r with
            | Some r' => Some (JObject [], r')
            | None => match parse_members f r with
                      | Some (ms, r') => Some (JObject ms, r')
                      | None => None
                      end
            end
          else if (c =? 110)%N then literal "null" JNull (c :: r)
          else if (c =? 116)%N then literal "true" (JBool true) (c :: r)
          else if (c =? 102)%N then literal "false" (JBool false) (c :: r)
          else match parse_number (c :: r) with
               | Some (n, r') => Some (JNumber n, r')
               | None => None
               end
      end
  end

with parse_elements (fuel : nat) (s : jsstring)
  : option (list value * jsstring) :=
  match fuel with
  | O => None
  | S f =>
      match parse_value f s with
      | Some (v, r) =>
          match expect 44 r with
          | Some r' => cons_fst v (parse_elements f r')
          | None => match expect 93 r with
                    | Some r' => Some ([v], r')
                    | None => None
                    end
          end
      | None => None
      end
  end

with parse_members (fuel : nat) (s : jsstring)
  : option (list (jsstring * value) * jsstring) :=
  match fuel with
  | O => None
  | S f =>
      match expect 34 s with
      | Some r =>
          match parse_string_body r with
          | Some (key, r1) =>
              match expect 58 r1 with
              | Some r2 =>
                  match parse_value f r2 with
                  | Some (v, r3) =>
                      match expect 44 r3 with
                      | Some r4 => cons_fst (key, v) (parse_members f r4)
                      | None => match expect 125 r3 with
                                | Some r4 => Some ([(key, v)], r4)
                                | None => None
                                end
                      end
                  | None => None
                  end
              | None => None
              end
          | None => None
          end
      | None => None
      end
  end.

(** [JSON.parse(text)]: [None] stands for the SyntaxError it throws.  The
    fuel bounds the depth of the calls; twice the length of the text is
    always enough ([parse_fuel_enough] below). *)
Definition parse (text : jsstring) : option value :=
  match parse_value (4 + 2 * List.length text) text with
  | Some (v, r) => match skip_ws r with
                   | [] => Some v
                   | _ :: _ => None
                   end
  | None => None
  end.

(** Property read [v.key]: the last member of that name of an object,
    [undefined] ([None]) otherwise.  ([null] is excluded by the callers.) *)
Definition get (key : jsstring) (v : value) : option value :=
  match v with
  | JObject ms =>
      match find (fun m => jsstring_eqb (fst m) key) (rev ms) with
      | Some m => Some (snd m)
      | None => None
      end
  | _ => None
  end.

(** Whether [ToString(v)] completes for a value that [JSON.parse] has
    made, as when [v] is put into a template literal.  An object is
    converted by the method [toString] it has or inherits: a member named
    [toString] hides [Object.prototype.toString] and is not callable, nor
    does [valueOf] give a primitive, so the conversion throws a TypeError.
    An array is converted by [Array.prototype.join], which converts its
    elements other than [null]. *)
Fixpoint ToString_completes (v : value) : bool :=
  match v with
  | JArray elements =>
      (fix all (l : list value) : bool :=
         match l with
         | [] => true
         | e :: r => ToString_completes e && all r
         end) elements
  | JObject members =>
      negb (existsb (fun m => jsstring_eqb (fst m) (js "toString")) members)
  | _ => true
  end.

End JSON.

(* ================================================================== *)
(** ** Effects: traces of external calls, exceptions *)

Module Effects.
Import JS.

(** A [Buffer] is represented by the text its bytes decode to as UTF-8,
    which is all the worker reads of it. *)
Record Buffer : Type := { utf8 : jsstring }.

(** [Buffer.from(s)].toString(): encoding to UTF-8 and back keeps every
    code unit but a lone surrogate, which becomes U+FFFD. *)
Fixpoint scrub (s : jsstring) : jsstring :=
  match s with
  | [] => []
  | c :: r =>
      if JSON.is_leading_surrogate c then
        match r with
        | d :: r' =>
            if JSON.is_trailing_surrogate d then c :: d :: scrub r'
            else 65533%N :: scrub r
        | [] => [65533%N]
        end
      else if JSON.is_trailing_surrogate c then 65533%N :: scrub r
      else c :: scrub r
  end.

Definition Buffer_from (s : jsstring) : Buffer := {| utf8 := scrub s |}.

Definition Buffer_toString (b : Buffer) : jsstring := utf8 b.

Inductive error : Type :=
| SyntaxError
| TypeError
| LibraryError
| ThrownValue
| InvalidResult
| AnalysisFailed
| AnalysisFailedUnknown.

Inductive file : Type :=
| LighthouseReportJson
| ReportPdf.

Inductive reply : Type :=
| Usage
| Scheduled (url : jsstring) (hour minute : number).

(** The texts the [/check] handlers reply with. *)
Inductive check_text : Type :=
| PleaseProvideUrl
| Queued
| FailedToQueue
| FailedToCheck.

(** External calls, in the order the program issues them.  A call that can
    fail carries its outcome.  [CallSendToQueue] and [CallCheckPageSpeed]
    mark the entry into the function of that name. *)
Inductive event : Type :=
| ConsoleLog
| ConsoleError (e : error)
| CallCheckPageSpeed (url : option JSON.value)
| ChromeLaunch (ok : bool)
| Lighthouse (url : option JSON.value) (ok : bool)
| ChromeKill (ok : bool)
| FsWriteFile (f : file) (ok : bool)
| FsUnlink (f : file) (ok : bool)
| PdfCreate (ok : bool)
| PdfDrawText (content : jsstring) (ok : bool)
| PdfSave (ok : bool)
| SendDocument (chatId : option JSON.value) (ok : bool)
| Ack (deliveryTag : N)
| CallSendToQueue (url : jsstring) (chatId : Z)
| AmqpConnect (ok : bool)
| AmqpCreateChannel (ok : bool)
| AmqpAssertQueue (ok : bool)
| AmqpPrefetch (count : nat)
| AmqpConsume
| AmqpPublish (content : Buffer)
| AmqpChannelClose (ok : bool)
| AmqpConnectionClose (ok : bool)
| DbFindAll (ok : bool)
| DbCreate (ok : bool)
| Reply (r : reply)
| ReplyCheck (text : check_text) (ok : bool).

Definition trace := list event.

Inductive result (A : Type) : Type :=
| Returned (a : A)
| Thrown (e : error).

Arguments Returned {A} a.
Arguments Thrown {A} e.

(** A computation that has run: what it did and how it ended. *)
Definition exec (A : Type) : Type := (trace * result A)%type.

Definition ret {A : Type} (a : A) : exec A := ([], Returned a).

Definition throw {A : Type} (e : error) : exec A := ([], Thrown e).

Definition bind {A B : Type} (m : exec A) (k : A -> exec B) : exec B :=
  match m with
  | (t, Returned a) => let (t', r) := k a in (t ++ t', r)
  | (t, Thrown e) => (t, Thrown e)
  end.

Definition emit (ev : event) : exec unit := ([ev], Returned tt).

(** An external call: it is recorded, and throws (an [Error] of the
    library) when it fails. *)
Definition call (ev : bool -> event) (ok : bool) : exec unit :=
  ([ev ok], if ok then Returned tt else Thrown LibraryError).

(** [try { body } catch (e) { handler e }]. *)
Definition try_catch {A : Type} (body : exec A) (handler : error -> exec A)
  : exec A :=
  match body with
  | (t, Returned a) => (t, Returned a)
  | (t, Thrown e) => let (t', r) := handler e in (t ++ t', r)
  end.

(** [try { body } finally { fin }]: [fin] always runs; when it throws, its
    error replaces the outcome of [body]. *)
Definition try_finally {A : Type} (body : exec A) (fin : exec unit)
  : exec A :=
  match body, fin with
  | (t, r), (t', Returned _) => (t ++ t', r)
  | (t, _), (t', Thrown e) => (t ++ t', Thrown e)
  end.

Declare Scope exec_scope.
Delimit Scope exec_scope with exec.
Notation "x <- m ;; k" := (bind m (fun x => k))
  (at level 61, m at next level, right associativity) : exec_scope.
Notation "m ;;; k" := (bind m (fun _ => k))
  (at level 61, right associativity) : exec_scope.

(** [for (const x of l) body], the iterations numbered from [i]. *)
Fixpoint for_of {A : Type} (body : nat -> A -> exec unit) (i : nat)
  (l : list A) : exec unit :=
  match l with
  | [] => ret tt
  | x :: r => bind (body i x) (fun _ => for_of body (S i) r)
  end.

Definition returns {A : Type} (m : exec A) : bool :=
  match snd m with
  | Returned _ => true
  | Thrown _ => false
  end.

End Effects.

(* ================================================================== *)
(** ** The queue worker *)

Module Worker.
Import JS JSON Effects.
Local Open Scope exec_scope.

(** What [lighthouse(url, ...)] does: throws (an [Error] or some other
    value), resolves to nothing usable ([runnerResult] or its [lhr] is
    missing), or resolves to a report, whose audits may be incomplete. *)
Inductive lighthouse_outcome : Type :=
| LhThrows (is_Error : bool)
| LhNoResult
| LhReport (audits_complete : bool) (summary : jsstring).

(** Outcomes of the external calls made while one entry is processed. *)
Record Env : Type := {
  chrome_launch : bool;
  lighthouse : lighthouse_outcome;
  report_write : bool;
  chrome_kill : bool;
  pdf_create : bool;
  pdf_draw : bool;
  pdf_save : bool;
  pdf_write : bool;
  send_document : bool;
  unlink : bool
}.

Definition run_lighthouse (env : Env) (url : option value)
  : exec (option (bool * jsstring)) :=
  match lighthouse env with
  | LhThrows is_Error =>
      ([Lighthouse url false],
       Thrown (if is_Error then LibraryError else ThrownValue))
  | LhNoResult => ([Lighthouse url true], Returned None)
  | LhReport audits_complete summary =>
      ([Lighthouse url true], Returned (Some (audits_complete, summary)))
  end.

(** [`... ${v} ...`]: a value put into a template literal is converted
    to a string, which throws a TypeError when the conversion does not
    complete; [undefined] ([None]) gives [undefined].  The text is not
    modelled. *)
Definition interpolate (v : option value) : exec unit :=
  match v with
  | Some x => if ToString_completes x then ret tt else throw TypeError
  | None => ret tt
  end.

(** [checkPageSpeed(url)] of the worker and of [index.ts] (the same
    code).  Chrome is launched before the [try]; the [finally] kills it.
    The message of the error thrown in the [catch] is a template literal
    that holds [url]. *)
Definition checkPageSpeed (env : Env) (url : option value) : exec jsstring :=
  emit (CallCheckPageSpeed url) ;;;
  call ChromeLaunch (chrome_launch env) ;;;
  try_finally
    (try_catch
       (runnerResult <- run_lighthouse env url ;;
        match runnerResult with
        | None => throw InvalidResult
        | Some (audits_complete, summary) =>
            (if audits_complete then ret tt else throw TypeError) ;;;
            call (FsWriteFile LighthouseReportJson) (report_write env) ;;;
            emit ConsoleLog ;;;
            ret summary
        end)
       (fun error =>
          match error with
          | ThrownValue => interpolate url ;;; throw AnalysisFailedUnknown
          | _ => interpolate url ;;; throw AnalysisFailed
          end))
    (call ChromeKill (chrome_kill env)).

(** [generatePDFReport(content)]; the bytes of the document are not
    modelled. *)
Definition generatePDFReport (env : Env) (content : jsstring) : exec unit :=
  call PdfCreate (pdf_create env) ;;;
  call (PdfDrawText content) (pdf_draw env) ;;;
  call PdfSave (pdf_save env).

Record Message : Type := {
  deliveryTag : N;
  content : Buffer
}.

(** [JSON.parse(text)] as a computation. *)
Definition JSON_parse (text : jsstring) : exec value :=
  match JSON.parse text with
  | Some v => ret v
  | None => throw SyntaxError
  end.

(** [const { url, chatId } = v]. *)
Definition destructure (v : value) : exec (option value * option value) :=
  match v with
  | JNull => throw TypeError
  | _ => ret (get (js "url") v, get (js "chatId") v)
  end.

(** The callback given to [channel.consume].  The line that logs [url]
    and [chatId] in a template literal stands before the [try], as do
    [JSON.parse] and the destructuring. *)
Definition consumeCallback (env : Env) (msg : option Message) : exec unit :=
  match msg with
  | None => ret tt
  | Some m =>
      v <- JSON_parse (Buffer_toString (content m)) ;;
      p <- destructure v ;;
      let (url, chatId) := p in
      interpolate url ;;;
      interpolate chatId ;;;
      emit ConsoleLog ;;;
      try_catch
        (speedReport <- checkPageSpeed env url ;;
         generatePDFReport env speedReport ;;;
         call (FsWriteFile ReportPdf) (pdf_write env) ;;;
         call (SendDocument chatId) (send_document env) ;;;
         call (FsUnlink ReportPdf) (unlink env))
        (fun error => emit (ConsoleError error)) ;;;
      emit (Ack (deliveryTag m))
  end.

Record ConnEnv : Type := {
  connect : bool;
  create_channel : bool;
  assert_queue : bool
}.

(** [startWorker()] up to the registration of the callback. *)
Definition startWorker (env : ConnEnv) : exec unit :=
  call AmqpConnect (connect env) ;;;
  call AmqpCreateChannel (create_channel env) ;;;
  call AmqpAssertQueue (assert_queue env) ;;;
  emit (AmqpPrefetch 1) ;;;
  emit ConsoleLog ;;;
  emit AmqpConsume.

End Worker.

(* ================================================================== *)
(** ** Schedules: the [/schedule] command and the stores *)

Module Schedule.
Import JS JSON Effects.
Local Open Scope exec_scope.

Record Context : Type := {
  text : jsstring;
  chat_id : Z
}.

(** The first lines of every [/schedule] handler:
    [[command, url, time] = text.split(' ')] and
    [[hour, minute] = time.split(':').map(Number)].
    Reading [split] of an undefined [time] throws a TypeError. *)
Definition schedule_arguments (ctx : Context)
  : exec (option jsstring * option number * option number) :=
  let tokens := split 32 (text ctx) in
  let url := nth_error tokens 1 in
  let time := nth_error tokens 2 in
  match time with
  | None => throw TypeError
  | Some t =>
      let parts := map Number (split 58 t) in
      ret (url, nth_error parts 0, nth_error parts 1)
  end.

(** The test [!url || isNaN(hour) || isNaN(minute)]. *)
Definition rejected (url : option jsstring) (hour minute : option number)
  : bool :=
  falsy url || isNaN hour || isNaN minute.

(* ------------------------------------------------------------------ *)
(** *** Database-backed store ([producer.ts]) *)

Record ScheduledReport : Type := {
  id : Z;
  chatId : Z;
  url : jsstring;
  hour : number;
  minute : number
}.

Definition Table := list ScheduledReport.

(** [bot.command('schedule', ...)] over the table [scheduled_reports].
    The last branch of the [match] is dead: an undefined [url], [hour] or
    [minute] is [rejected]. *)
Definition schedule_db (db : Table) (create_ok : bool) (ctx : Context)
  : exec Table :=
  args <- schedule_arguments ctx ;;
  let '(url, hour, minute) := args in
  if rejected url hour minute then
    emit (Reply Usage) ;;; ret db
  else
    match url, hour, minute with
    | Some u, Some h, Some m =>
        call DbCreate create_ok ;;;
        emit (Reply (Scheduled u h m)) ;;;
        ret (db ++ [{| id := Z.of_nat (List.length db) + 1;
                       chatId := chat_id ctx;
                       url := u; hour := h; minute := m |}])
    | _, _, _ => ret db
    end.

(* ------------------------------------------------------------------ *)
(** *** In-memory store ([scheduledReports], two variants) *)

Record Entry : Type := {
  entry_url : jsstring;
  entry_hour : number;
  entry_minute : number
}.

(** The object [scheduledReports], as the list of its properties in the
    order [for ... in] visits them: array-index keys ascending, then the
    other keys in the order of their creation. *)
Definition Store := list (Z * Entry).

Definition is_array_index (k : Z) : bool :=
  (0 <=? k) && (k <? 2 ^ 32 - 1).

(** [scheduledReports[k] = e]. *)
Fixpoint set (k : Z) (e : Entry) (s : Store) : Store :=
  match s with
  | [] => [(k, e)]
  | (k', e') :: r =>
      if k' =? k then (k, e) :: r
      else if is_array_index k && (negb (is_array_index k') || (k <? k'))
           then (k, e) :: (k', e') :: r
      else (k', e') :: set k e r
  end.

(** [bot.command('schedule', ...)] over [scheduledReports]. *)
Definition schedule_mem (store : Store) (ctx : Context) : exec Store :=
  args <- schedule_arguments ctx ;;
  let '(url, hour, minute) := args in
  if rejected url hour minute then
    emit (Reply Usage) ;;; ret store
  else
    match url, hour, minute with
    | Some u, Some h, Some m =>
        let store' :=
          set (chat_id ctx)
              {| entry_url := u; entry_hour := h; entry_minute := m |}
              store in
        emit (Reply (Scheduled u h m)) ;;;
        ret store'
    | _, _, _ => ret store
    end.

End Schedule.

(* ================================================================== *)
(** ** The producers: [sendToQueue] and the matcher ticks *)

Module Producer.
Import JS JSON Effects Schedule.
Local Open Scope exec_scope.

(** Outcomes of the AMQP calls of one [sendToQueue]. *)
Record SendEnv : Type := {
  connect : bool;
  create_channel : bool;
  assert_queue : bool;
  channel_close : bool;
  connection_close : bool
}.

Definition sendToQueue (env : SendEnv) (url : jsstring) (chatId : Z)
  : exec unit :=
  emit (CallSendToQueue url chatId) ;;;
  call AmqpConnect (connect env) ;;;
  call AmqpCreateChannel (create_channel env) ;;;
  call AmqpAssertQueue (assert_queue env) ;;;
  let message := stringify_payload url chatId in
  emit (AmqpPublish (Buffer_from message)) ;;;
  emit ConsoleLog ;;;
  call AmqpChannelClose (channel_close env) ;;;
  call AmqpConnectionClose (connection_close env).

(** [new Date()], as far as the ticks read it. *)
Record Date : Type := {
  getHours : Z;
  getMinutes : Z
}.

(** [hour === currentHour && minute === currentMinute]; also the [where]
    clause of [findAll]. *)
Definition matches (now : Date) (hour minute : number) : bool :=
  strict_eq hour (of_Z (getHours now))
  && strict_eq minute (of_Z (getMinutes now)).

(** The tick of the database-backed producer.  [senv i] gives the
    outcomes of the AMQP calls of the [i]-th iteration. *)
Definition tick_db (db : Table) (find_ok : bool) (now : Date)
  (senv : nat -> SendEnv) : exec unit :=
  call DbFindAll find_ok ;;;
  let reports := filter (fun r => matches now (hour r) (minute r)) db in
  for_of
    (fun i report =>
       try_catch
         (sendToQueue (senv i) (url report) (chatId report) ;;;
          emit ConsoleLog)
         (fun error => emit (ConsoleError error)))
    0 reports.

(** The tick of the producer that keeps [scheduledReports] in memory.
    The key of a property is the decimal text of a chat identifier, which
    [parseInt] reads back. *)
Definition tick_mem (store : Store) (now : Date) (senv : nat -> SendEnv)
  : exec unit :=
  for_of
    (fun i (p : Z * Entry) =>
       let (chatId, e) := p in
       if matches now (entry_hour e) (entry_minute e) then
         try_catch
           (sendToQueue (senv i) (entry_url e) chatId)
           (fun error => emit (ConsoleError error))
       else ret tt)
    0 store.

End Producer.

(* ================================================================== *)
(** ** [index.ts]: the tick that analyses inline *)

Module Index.
Import JS JSON Effects Schedule.
Local Open Scope exec_scope.

(** The tick of [index.ts]: a matching schedule is analysed and its
    report sent at once; [chatId] is the property key, a string. *)
Definition tick (store : Store) (now : Producer.Date)
  (wenv : nat -> Worker.Env) : exec unit :=
  for_of
    (fun i (p : Z * Entry) =>
       let (chatId, e) := p in
       if Producer.matches now (entry_hour e) (entry_minute e) then
         try_catch
           (speedReport <-
              Worker.checkPageSpeed (wenv i) (Some (JString (entry_url e))) ;;
            Worker.generatePDFReport (wenv i) speedReport ;;;
            call (FsWriteFile ReportPdf) (Worker.pdf_write (wenv i)) ;;;
            call (SendDocument (Some (JString (Number_toString chatId))))
                 (Worker.send_document (wenv i)) ;;;
            call (FsUnlink ReportPdf) (Worker.unlink (wenv i)))
           (fun error => emit (ConsoleError error))
       else ret tt)
    0 store.

End Index.

(* ================================================================== *)
(** ** The broker and one consumer *)

Module Broker.
Import Effects Worker.

(** What an observer of the consumer sees: the callback is invoked for a
    delivery, or the callback invoked for [tag] performs an external
    call. *)
Inductive observation : Type :=
| Begin (tag : N)
| Did (tag : N) (ev : event).

(** The queue, the deliveries awaiting their acknowledgement, and the
    invocations of the callback with what each has still to do (the
    callback is asynchronous: its calls interleave with whatever the
    channel delivers meanwhile). *)
Record State : Type := {
  ready : list Message;
  unacked : list N;
  running : list (N * trace);
  history : list observation
}.

(** The moves of the system: the broker delivers the head of the queue,
    or the [i]-th invocation performs its next call. *)
Inductive move : Type :=
| Deliver
| Run (i : nat).

(** The prefetch count set on the channel before [consume]; [0] (no
    [prefetch] call) means no limit. *)
Fixpoint prefetch_of (t : trace) : nat :=
  match t with
  | [] => 0
  | AmqpPrefetch n :: r =>
      match prefetch_of r with
      | O => n
      | S k => S k
      end
  | _ :: r => prefetch_of r
  end.

Section Consumer.

Variable prefetch : nat.
Variable env : N -> Worker.Env.

(** basic.qos: no delivery while [prefetch] deliveries are
    unacknowledged. *)
Definition may_deliver (s : State) : bool :=
  (prefetch =? 0)%nat || (List.length (unacked s) <? prefetch)%nat.

Definition acknowledge (ev : event) (u : list N) : list N :=
  match ev with
  | Ack tag => filter (fun t => negb (t =? tag)%N) u
  | _ => u
  end.

(** The [i]-th invocation performs its next call, if it has one. *)
Fixpoint advance (i : nat) (r : list (N * trace)) {struct r}
  : option (N * event * list (N * trace)) :=
  match r, i with
  | [], _ => None
  | (tag, ev :: evs) :: r', O => Some (tag, ev, (tag, evs) :: r')
  | (_, []) :: _, O => None
  | p :: r', S j =>
      match advance j r' with
      | Some (tag, ev, r'') => Some (tag, ev, p :: r'')
      | None => None
      end
  end.

Definition step (s : State) (m : move) : option State :=
  match m with
  | Deliver =>
      match ready s with
      | msg :: q =>
          if may_deliver s then
            Some {| ready := q;
                    unacked := unacked s ++ [deliveryTag msg];
                    running :=
                      running s
                      ++ [(deliveryTag msg,
                           fst (consumeCallback (env (deliveryTag msg))
                                                (Some msg)))];
                    history := history s ++ [Begin (deliveryTag msg)] |}
          else None
      | [] => None
      end
  | Run i =>
      match advance i (running s) with
      | Some (tag, ev, r) =>
          Some {| ready := ready s;
                  unacked := acknowledge ev (unacked s);
                  running := r;
                  history := history s ++ [Did tag ev] |}
      | None => None
      end
  end.

Fixpoint run (s : State) (ms : list move) : option State :=
  match ms with
  | [] => Some s
  | m :: r => match step s m with
              | Some s' => run s' r
              | None => None
              end
  end.

End Consumer.

(** The consumer subscribes to a queue that holds [queue]. *)
Definition initial (queue : list Message) : State :=
  {| ready := queue; unacked := []; running := []; history := [] |}.

End Broker.

(* ================================================================== *)
(** ** What is observed of a trace, and auxiliary definitions *)

Module Observe.
Import JS JSON Effects Worker Schedule Producer Broker.
Local Open Scope exec_scope.

(** The acknowledgements issued, in order.  (The program never issues a
    negative acknowledgement: there is no such call in the sources.) *)
Definition acks (t : trace) : list N :=
  flat_map (fun ev => match ev with Ack tag => [tag] | _ => [] end) t.

(** A document has been sent, and the call succeeded. *)
Definition delivered (t : trace) : bool :=
  existsb (fun ev => match ev with
                     | SendDocument _ true => true
                     | _ => false
                     end) t.

Definition recipients (t : trace) : list (option value) :=
  flat_map (fun ev => match ev with SendDocument c _ => [c] | _ => [] end) t.

Definition errors_logged (t : trace) : list error :=
  flat_map (fun ev => match ev with ConsoleError e => [e] | _ => [] end) t.

(** The number of live Chrome instances after [t], starting from [n]:
    a successful launch adds one, a successful [kill] removes one (a
    [kill] that fails leaves the instance). *)
Fixpoint chrome_live (n : nat) (t : trace) : nat :=
  match t with
  | [] => n
  | ChromeLaunch true :: r => chrome_live (S n) r
  | ChromeKill true :: r => chrome_live (Nat.pred n) r
  | _ :: r => chrome_live n r
  end.

(** The number of live Chrome instances at each acknowledgement. *)
Fixpoint chrome_at_ack (n : nat) (t : trace) : list nat :=
  match t with
  | [] => []
  | Ack _ :: r => n :: chrome_at_ack n r
  | ChromeLaunch true :: r => chrome_at_ack (S n) r
  | ChromeKill true :: r => chrome_at_ack (Nat.pred n) r
  | _ :: r => chrome_at_ack n r
  end.

Definition kills (t : trace) : list bool :=
  flat_map (fun ev => match ev with ChromeKill ok => [ok] | _ => [] end) t.

Definition calls_sendToQueue (t : trace) : list (jsstring * Z) :=
  flat_map (fun ev => match ev with
                      | CallSendToQueue u c => [(u, c)]
                      | _ => []
                      end) t.

Definition published (t : trace) : list Buffer :=
  flat_map (fun ev => match ev with AmqpPublish b => [b] | _ => [] end) t.

Definition analyses (t : trace) : list (option value) :=
  flat_map (fun ev => match ev with
                      | CallCheckPageSpeed u => [u]
                      | _ => []
                      end) t.

Definition replied_usage (t : trace) : bool :=
  existsb (fun ev => match ev with Reply Usage => true | _ => false end) t.

(** The members [url] and [chatId] of a payload can be converted to
    strings: the log line of the callback does not throw. *)
Definition printable (v : value) : bool :=
  returns (interpolate (get (js "url") v))
  && returns (interpolate (get (js "chatId") v)).

(** The error that [checkPageSpeed] throws in its [catch] when [e] is
    what it meant to throw: the message of [e] holds [url]. *)
Definition rethrown (url : option value) (e : error) : error :=
  if returns (interpolate url) then e else TypeError.


(** The Chrome instances that one analysis leaves alive: one, when the
    launch succeeds and [kill] fails. *)
Definition leaked (env : Worker.Env) : nat :=
  if chrome_launch env && negb (chrome_kill env) then 1 else 0.

(** [checkPageSpeed] resolves. *)
Definition analysis_ok (env : Worker.Env) : bool :=
  chrome_launch env
  && match lighthouse env with
     | LhReport true _ => true
     | _ => false
     end
  && report_write env && chrome_kill env.

(** The report is rendered, written and sent. *)
Definition delivery_ok (env : Worker.Env) : bool :=
  pdf_create env && pdf_draw env && pdf_save env && pdf_write env
  && send_document env.

(** The statements of the [try] block of the callback after the
    analysis. *)
Definition deliver (env : Worker.Env) (speedReport : jsstring)
  (chatId : option value) : exec unit :=
  generatePDFReport env speedReport ;;;
  call (FsWriteFile ReportPdf) (pdf_write env) ;;;
  call (SendDocument chatId) (send_document env) ;;;
  call (FsUnlink ReportPdf) (unlink env).

(** The [try ... catch] statement of the callback (and of the tick of
    [index.ts], which has the same one). *)
Definition attempt (env : Worker.Env) (url chatId : option value)
  : exec unit :=
  try_catch
    (speedReport <- checkPageSpeed env url ;; deliver env speedReport chatId)
    (fun error => emit (ConsoleError error)).

(** Per-iteration observations of a loop, the iterations numbered from
    [i]. *)
Fixpoint collect {A B : Type} (g : nat -> A -> list B) (i : nat)
  (l : list A) : list B :=
  match l with
  | [] => []
  | x :: r => g i x ++ collect g (S i) r
  end.

(** The message reaches the broker. *)
Definition transport_ok (env : SendEnv) : bool :=
  Producer.connect env && Producer.create_channel env
  && Producer.assert_queue env.

(** [sendToQueue] resolves. *)
Definition send_ok (env : SendEnv) : bool :=
  transport_ok env && channel_close env && connection_close env.

(** The [try ... catch] statements of the two producer ticks. *)
Definition try_send_db (env : SendEnv) (u : jsstring) (c : Z) : exec unit :=
  try_catch (sendToQueue env u c ;;; emit ConsoleLog)
            (fun error => emit (ConsoleError error)).

Definition try_send_mem (env : SendEnv) (u : jsstring) (c : Z) : exec unit :=
  try_catch (sendToQueue env u c) (fun error => emit (ConsoleError error)).

Definition due_rows (now : Date) (db : Table) : Table :=
  filter (fun r => matches now (hour r) (minute r)) db.

Definition due (now : Date) (p : Z * Entry) : bool :=
  matches now (entry_hour (snd p)) (entry_minute (snd p)).

Definition due_entries (now : Date) (store : Store) : Store :=
  filter (due now) store.

(** The bodies of the three loops. *)
Definition tick_db_body (senv : nat -> SendEnv) (i : nat)
  (r : ScheduledReport) : exec unit :=
  try_send_db (senv i) (url r) (chatId r).

Definition tick_mem_body (now : Date) (senv : nat -> SendEnv) (i : nat)
  (p : Z * Entry) : exec unit :=
  if due now p then try_send_mem (senv i) (entry_url (snd p)) (fst p)
  else ret tt.

Definition index_tick_body (now : Date) (wenv : nat -> Worker.Env) (i : nat)
  (p : Z * Entry) : exec unit :=
  if due now p
  then attempt (wenv i) (Some (JString (entry_url (snd p))))
               (Some (JString (Number_toString (fst p))))
  else ret tt.

(** The ranges the data model gives: hour 0-23, minute 0-59. *)
Definition in_range (h m : number) : bool :=
  match h, m with
  | Finite a, Finite b =>
      Qle_bool 0 a && Qle_bool a 23 && Qle_bool 0 b && Qle_bool b 59
  | _, _ => false
  end.

(** What the guard of the [/schedule] handlers establishes of a stored
    schedule: the URL token is not empty, and hour and minute are the
    numbers, other than [NaN], that [Number] reads in the first two
    pieces of the time token. *)
Definition checked (ctx : Context) (u : jsstring) (h m : number) : Prop :=
  falsy (Some u) = false /\ isNaN (Some h) = false /\ isNaN (Some m) = false
  /\ exists time,
       nth_error (split 32 (text ctx)) 1 = Some u
       /\ nth_error (split 32 (text ctx)) 2 = Some time
       /\ nth_error (map Number (split 58 time)) 0 = Some h
       /\ nth_error (map Number (split 58 time)) 1 = Some m.

(** Every delivery begun has been acknowledged or is still counted as
    unacknowledged by the broker. *)
Definition accounted (s : State) : Prop :=
  forall t, In (Begin t) (history s) ->
            In t (unacked s) \/ exists h, In (Did h (Ack t)) (history s).

(** No callback is invoked while an earlier delivery awaits its
    acknowledgement. *)
Definition sequential (h : list observation) : Prop :=
  forall pre t2 post, h = pre ++ Begin t2 :: post ->
  forall t1, In (Begin t1) pre -> exists k, In (Did k (Ack t1)) pre.

(** A parser that succeeds has consumed something, and succeeds the same
    with any fuel that is at least twice what it consumed. *)
Definition steady {A : Type} (p : nat -> jsstring -> option (A * jsstring))
  (f : nat) : Prop :=
  forall s a r, p f s = Some (a, r) ->
  (List.length r < List.length s)%nat
  /\ forall f', (2 * (List.length s - List.length r) <= f')%nat ->
                p f' s = Some (a, r).

(** Value of a run of decimal digits, least significant first. *)
Definition lsd_val (l : list N) : Z :=
  fold_right (fun d acc => acc * 10 + digit_val d) 0 l.

(** The fixed parts of the wire text around the URL and the chat
    identifier. *)
Definition payload_head : jsstring := [123; 34; 117; 114; 108; 34; 58; 34]%N.

Definition payload_middle : jsstring :=
  [34; 44; 34; 99; 104; 97; 116; 73; 100; 34; 58]%N.

End Observe.

(* ================================================================== *)
(** ** Concrete inputs *)

Module Examples.
Import JS JSON Effects Worker Schedule Producer Broker.

Definition example_url : jsstring := js "https://example.com".

Definition example_message : Message :=
  {| deliveryTag := 1;
     content := Buffer_from (stringify_payload example_url 42) |}.

Definition example_message_2 : Message :=
  {| deliveryTag := 2;
     content := Buffer_from (stringify_payload example_url 43) |}.

(** A message whose [url] cannot be converted to a string. *)
Definition unprintable_message : Message :=
  {| deliveryTag := 7;
     content := {| utf8 := [123; 34; 117; 114; 108; 34; 58; 123; 34; 116; 111;
                            83; 116; 114; 105; 110; 103; 34; 58; 110; 117;
                            108; 108; 125; 44; 34; 99; 104; 97; 116; 73; 100;
                            34; 58; 52; 50; 125]%N |} |}.

(** A message that is not JSON. *)
Definition malformed_message : Message :=
  {| deliveryTag := 1; content := {| utf8 := js "not json" |} |}.

(** Everything works. *)
Definition env_ok : Worker.Env :=
  {| chrome_launch := true;
     lighthouse := LhReport true (js "{}");
     report_write := true; chrome_kill := true;
     pdf_create := true; pdf_draw := true; pdf_save := true;
     pdf_write := true; send_document := true; unlink := true |}.

(** The audit throws. *)
Definition env_analysis_fails : Worker.Env :=
  {| chrome_launch := true;
     lighthouse := LhThrows true;
     report_write := true; chrome_kill := true;
     pdf_create := true; pdf_draw := true; pdf_save := true;
     pdf_write := true; send_document := true; unlink := true |}.

Definition conn_ok : ConnEnv :=
  {| Worker.connect := true; Worker.create_channel := true;
     Worker.assert_queue := true |}.

Definition send_env_ok : SendEnv :=
  {| Producer.connect := true; Producer.create_channel := true;
     Producer.assert_queue := true; channel_close := true;
     connection_close := true |}.

(** The broker is unreachable. *)
Definition send_env_down : SendEnv :=
  {| Producer.connect := false; Producer.create_channel := true;
     Producer.assert_queue := true; channel_close := true;
     connection_close := true |}.

Definition ctx_out_of_range : Context :=
  {| text := js "/schedule http://x 25:99"; chat_id := 42 |}.

(** Two spaces after the command: the URL token is empty. *)
Definition ctx_empty_url : Context :=
  {| text := js "/schedule  12:30"; chat_id := 42 |}.

Definition ctx_no_time : Context :=
  {| text := js "/schedule http://x"; chat_id := 42 |}.

Definition half_past_nine : Date := {| getHours := 9; getMinutes := 30 |}.

Definition nine_thirty_one : Date := {| getHours := 9; getMinutes := 31 |}.

Definition row_0930 : ScheduledReport :=
  {| id := 1; chatId := 42; url := example_url;
     hour := of_Z 9; minute := of_Z 30 |}.

(** The first entry is processed (its audit throws), then the second is
    delivered. *)
Definition schedule_two : list move :=
  [Deliver; Run 0; Run 0; Run 0; Run 0; Run 0; Run 0; Run 0; Deliver].

Definition history_two : list observation :=
  [Begin 1;
   Did 1 ConsoleLog;
   Did 1 (CallCheckPageSpeed (Some (JString example_url)));
   Did 1 (ChromeLaunch true);
   Did 1 (Lighthouse (Some (JString example_url)) false);
   Did 1 (ChromeKill true);
   Did 1 (ConsoleError AnalysisFailed);
   Did 1 (Ack 1)].

(** The state of the consumer after a malformed message has been
    delivered. *)
Definition stuck_state : State :=
  {| ready := [example_message_2];
     unacked := [1%N];
     running := [(1%N, [])];
     history := [Begin 1] |}.

End Examples.

From Stdlib Require Import Sorted.

(* ================================================================== *)
(** ** The [/check] command *)

Module Commands.
Import JS JSON Effects Schedule Producer.
Local Open Scope exec_scope.

(** [bot.command('check', ...)] of the two producers.  The promise of
    the reply that asks for a URL is returned, so a failure of that call
    rejects the handler; the promises of the other two replies are
    dropped, so a failure of theirs is not the handler's.  [reply_ok] is
    the outcome of the one reply the handler sends. *)
Definition check_queue (env : SendEnv) (reply_ok : bool) (ctx : Context)
  : exec unit :=
  let url := nth_error (split 32 (text ctx)) 1 in
  match url with
  | None => call (ReplyCheck PleaseProvideUrl) reply_ok
  | Some u =>
      if falsy (Some u) then call (ReplyCheck PleaseProvideUrl) reply_ok
      else
        try_catch
          (sendToQueue env u (chat_id ctx) ;;;
           emit (ReplyCheck Queued reply_ok))
          (fun error =>
             emit (ConsoleError error) ;;;
             emit (ReplyCheck FailedToQueue reply_ok))
  end.

(** [bot.command('check', ...)] of [index.ts]: the analysis runs in the
    handler; [ctx.replyWithDocument], awaited in the [try], sends the
    report to the chat of the command. *)
Definition check_inline (env : Worker.Env) (reply_ok : bool) (ctx : Context)
  : exec unit :=
  let url := nth_error (split 32 (text ctx)) 1 in
  match url with
  | None => call (ReplyCheck PleaseProvideUrl) reply_ok
  | Some u =>
      if falsy (Some u) then call (ReplyCheck PleaseProvideUrl) reply_ok
      else
        try_catch
          (speedReport <- Worker.checkPageSpeed env (Some (JString u)) ;;
           Worker.generatePDFReport env speedReport ;;;
           call (FsWriteFile ReportPdf) (Worker.pdf_write env) ;;;
           call (SendDocument (Some (JNumber (of_Z (chat_id ctx)))))
                (Worker.send_document env) ;;;
           call (FsUnlink ReportPdf) (Worker.unlink env))
          (fun error =>
             emit (ConsoleError error) ;;;
             emit (ReplyCheck FailedToCheck reply_ok))
  end.

End Commands.

(* ================================================================== *)
(** ** Further notions used by the properties *)

Module Derived.
Import JS JSON Effects Worker Schedule Producer Broker Observe.

(** [pieces.join(sep)]. *)
Fixpoint join (sep : N) (pieces : list jsstring) : jsstring :=
  match pieces with
  | [] => []
  | [p] => p
  | p :: rest => p ++ sep :: join sep rest
  end.

(** [scheduledReports[k]]. *)
Definition lookup (k : Z) (s : Store) : option Entry :=
  match find (fun p => fst p =? k) s with
  | Some p => Some (snd p)
  | None => None
  end.

Definition keys (s : Store) : list Z := map fst s.

(** The order in which [for ... in] visits two keys: an array index comes
    before a key that is not one and before a greater array index; keys
    that are not array indices keep the order of their creation. *)
Definition before (k k' : Z) : Prop :=
  if is_array_index k then is_array_index k' = false \/ k < k'
  else is_array_index k' = false.

(** The object after a series of [/schedule] commands, starting from the
    empty object; a command that throws leaves it as it is. *)
Definition schedule_all (ctxs : list Context) : Store :=
  fold_left (fun s ctx => match snd (schedule_mem s ctx) with
                          | Returned s' => s'
                          | Thrown _ => s
                          end) ctxs [].

(** The effect of one call on the number of live Chrome instances: a
    launch that succeeds adds one, a [kill] that succeeds removes one. *)
Definition chrome_next (n : nat) (ev : event) : nat :=
  match ev with
  | ChromeLaunch true => S n
  | ChromeKill true => Nat.pred n
  | _ => n
  end.

(** The replies of the [/check] handlers, with their outcomes. *)
Definition check_replies (t : trace) : list (check_text * bool) :=
  flat_map (fun ev => match ev with
                      | ReplyCheck text ok => [(text, ok)]
                      | _ => []
                      end) t.


(** At no point of [t], starting with [n] live instances, is more than
    one Chrome alive. *)
Fixpoint at_most_one_chrome (n : nat) (t : trace) : bool :=
  (n <=? 1)%nat
  && match t with
     | [] => true
     | ev :: r => at_most_one_chrome (chrome_next n ev) r
     end.

(** The external calls of a history, whoever made them. *)
Definition events_of (h : list observation) : trace :=
  flat_map (fun o => match o with Did _ ev => [ev] | Begin _ => [] end) h.

(** What the invocations of the callback have still to do. *)
Definition pending (r : list (N * trace)) : trace :=
  List.concat (map snd r).

(** The moves that process a queue entry by entry: deliver, then let the
    callback (the [i]-th invocation) run to its end. *)
Fixpoint drain (env : N -> Worker.Env) (i : nat) (queue : list Message)
  : list move :=
  match queue with
  | [] => []
  | m :: q =>
      Deliver
      :: repeat (Run i)
           (List.length
              (fst (consumeCallback (env (deliveryTag m)) (Some m))))
      ++ drain env (S i) q
  end.

(** The payload of a message is JSON other than [null] whose members
    [url] and [chatId] can be put into the log line. *)
Definition well_formed (m : Message) : Prop :=
  exists v, JSON.parse (Buffer_toString (content m)) = Some v /\ v <> JNull
            /\ printable v = true.

(** A channel or a connection has been closed. *)
Definition closes (t : trace) : list event :=
  filter (fun ev => match ev with
                    | AmqpChannelClose _ | AmqpConnectionClose _ => true
                    | _ => false
                    end) t.

(** The keys are distinct and in the order of [for ... in]. *)
Definition tidy (s : Store) : Prop :=
  StronglySorted before (keys s) /\ NoDup (keys s).

(** Calm traces: never two Chromes alive, none left at the end. *)
Definition calm (t : trace) : Prop :=
  at_most_one_chrome 0 t = true /\ chrome_live 0 t = 0%nat.

(** An invocation of the callback that has nothing more to do. *)
Definition finished (p : N * trace) : Prop := snd p = [].

(** At most one invocation of the callback is under way, and the broker
    still counts its delivery as unacknowledged. *)
Definition quiet (s : State) : Prop :=
  Forall finished (running s)
  \/ exists r1 tag pre r2,
       running s = r1 ++ (tag, pre ++ [Ack tag]) :: r2
       /\ Forall finished r1 /\ Forall finished r2
       /\ acks pre = [] /\ In tag (unacked s).

(** The number of invocations that are under way. *)
Definition unfinished (r : list (N * trace)) : nat :=
  List.length
    (filter (fun p => match snd p with [] => false | _ => true end) r).

(** What holds of every state of the consumer when the prefetch count
    is 1: one invocation at a time and, when every [kill] of Chrome
    succeeds, one Chrome at a time in what has been done and what the
    invocations have still to do. *)
Definition steady_state (env : N -> Worker.Env) (s : State) : Prop :=
  quiet s
  /\ ((forall tag, chrome_kill (env tag) = true) ->
      calm (events_of (history s) ++ pending (running s))).

(** The worker resolves and acknowledges a delivery of [b], whatever its
    tag and whatever the outside world answers. *)
Definition processed (b : Buffer) : Prop :=
  forall wenv tag,
    let m := {| deliveryTag := tag; content := b |} in
    well_formed m
    /\ returns (consumeCallback wenv (Some m)) = true
    /\ acks (fst (consumeCallback wenv (Some m))) = [tag].

End Derived.

(* ================================================================== *)
(** * Properties *)

Import JS JSON Effects Worker Schedule Producer Broker Observe Examples.

Ltac Zify.zify_post_hook ::= Z.to_euclidean_division_equations.

(** Case analysis on the first comparison of code units in the goal. *)
Ltac case_cmp :=
  match goal with
  | |- context [(?a =? ?b)%N] => destruct (N.eqb_spec a b)
  | |- context [(?a <=? ?b)%N] => destruct (N.leb_spec a b)
  | |- context [(?a <? ?b)%N] => destruct (N.ltb_spec a b)
  end.

(** Induction that peels one or two elements, as the functions that look
    one code unit ahead do. *)
Lemma list_ind2 {A : Type} (P : list A -> Prop) :
  P [] -> (forall a, P [a]) ->
  (forall a b l, P l -> P (b :: l) -> P (a :: b :: l)) ->
  forall l, P l.
Proof.
  intros H0 H1 H2 l.
  assert (H : P l /\ forall a, P (a :: l)).
  { induction l as [|b l [IHl IHc]]; split; auto. }
  apply H.
Qed.

(* ------------------------------------------------------------------ *)
(** ** The execution monad *)

Lemma fst_bind {A B} (m : exec A) (k : A -> exec B) :
  fst (bind m k)
  = fst m ++ match snd m with
             | Returned a => fst (k a)
             | Thrown _ => []
             end.
Proof.
  destruct m as [t [a|e]]; cbn.
  - destruct (k a); reflexivity.
  - rewrite app_nil_r. reflexivity.
Qed.

Lemma snd_bind {A B} (m : exec A) (k : A -> exec B) :
  snd (bind m k)
  = match snd m with
    | Returned a => snd (k a)
    | Thrown e => Thrown e
    end.
Proof.
  destruct m as [t [a|e]]; cbn; [destruct (k a)|]; reflexivity.
Qed.

Lemma fst_try_catch {A} (m : exec A) (h : error -> exec A) :
  fst (try_catch m h)
  = fst m ++ match snd m with
             | Returned _ => []
             | Thrown e => fst (h e)
             end.
Proof.
  destruct m as [t [a|e]]; cbn.
  - rewrite app_nil_r. reflexivity.
  - destruct (h e); reflexivity.
Qed.

Lemma snd_try_catch {A} (m : exec A) (h : error -> exec A) :
  snd (try_catch m h)
  = match snd m with
    | Returned a => Returned a
    | Thrown e => snd (h e)
    end.
Proof.
  destruct m as [t [a|e]]; cbn; [|destruct (h e)]; reflexivity.
Qed.

Lemma exec_eta {A} (m : exec A) : m = (fst m, snd m).
Proof. destruct m; reflexivity. Qed.

(** A loop whose body never throws runs to its end, and what is observed
    of it is what is observed of its iterations. *)
Lemma for_of_returns {A} (body : nat -> A -> exec unit) :
  (forall i x, returns (body i x) = true) ->
  forall l i, returns (for_of body i l) = true.
Proof.
  intros H l. induction l as [|x l IH]; intros i; [reflexivity|].
  cbn [for_of]. unfold returns in *. rewrite snd_bind.
  specialize (H i x). destruct (snd (body i x)); [apply IH|discriminate].
Qed.

Lemma for_of_collect {A B} (obs : trace -> list B)
  (body : nat -> A -> exec unit) (g : nat -> A -> list B) :
  (forall a b, obs (a ++ b) = obs a ++ obs b) ->
  obs [] = [] ->
  (forall i x, returns (body i x) = true) ->
  (forall i x, obs (fst (body i x)) = g i x) ->
  forall l i, obs (fst (for_of body i l)) = collect g i l.
Proof.
  intros Happ Hnil Hret Hobs l.
  induction l as [|x l IH]; intros i; [exact Hnil|].
  cbn [for_of collect]. rewrite fst_bind, Happ, Hobs.
  specialize (Hret i x). unfold returns in Hret.
  destruct (snd (body i x)); [|discriminate].
  rewrite IH. reflexivity.
Qed.

Lemma collect_map {A B} (f : A -> B) (l : list A) (i : nat) :
  collect (fun _ x => [f x]) i l = map f l.
Proof.
  revert i. induction l as [|x l IH]; intros i; [reflexivity|].
  cbn [collect map app]. rewrite IH. reflexivity.
Qed.

Lemma collect_filter_map {A B} (p : A -> bool) (f : A -> B) (l : list A)
  (i : nat) :
  collect (fun _ x => if p x then [f x] else []) i l = map f (filter p l).
Proof.
  revert i. induction l as [|x l IH]; intros i; [reflexivity|].
  cbn [collect filter]. rewrite IH. destruct (p x); reflexivity.
Qed.

Lemma chrome_live_app (a b : trace) (n : nat) :
  chrome_live n (a ++ b) = chrome_live (chrome_live n a) b.
Proof.
  revert n. induction a as [|ev a IH]; intros n; [reflexivity|].
  destruct ev; cbn [app chrome_live]; try apply IH;
    destruct ok; apply IH.
Qed.

Lemma chrome_at_ack_app (a b : trace) (n : nat) :
  chrome_at_ack n (a ++ b)
  = chrome_at_ack n a ++ chrome_at_ack (chrome_live n a) b.
Proof.
  revert n. induction a as [|ev a IH]; intros n; [reflexivity|].
  destruct ev; cbn [app chrome_at_ack chrome_live]; try apply IH;
    try (destruct ok; apply IH).
  rewrite IH. reflexivity.
Qed.

Lemma chrome_at_ack_no_acks (a : trace) (n : nat) :
  acks a = [] -> chrome_at_ack n a = [].
Proof.
  revert n. induction a as [|ev a IH]; intros n H; [reflexivity|].
  destruct ev; cbn [chrome_at_ack]; cbn in H; try (apply IH; exact H);
    try (destruct ok; apply IH; exact H).
  discriminate.
Qed.

(* ------------------------------------------------------------------ *)
(** ** Doubles: integers below [2^53] are exact *)

Lemma round_half_even_1 (n : Z) : round_half_even n 1 = n.
Proof.
  unfold round_half_even. rewrite Z.mod_1_r, Z.div_1_r. reflexivity.
Qed.

Lemma scale2_exact (z e : Z) :
  e <= 0 -> scale2 (z * 2 ^ (- e)) e = inject_Z z.
Proof.
  intros He. unfold scale2.
  destruct (Z.leb_spec 0 e) as [H|H].
  - assert (e = 0) as -> by lia. cbn [Z.opp Z.pow]. rewrite !Z.mul_1_r.
    reflexivity.
  - assert (P : 0 < 2 ^ (- e)) by (apply Z.pow_pos_nonneg; lia).
    transitivity (Qred (inject_Z z)).
    + apply Qred_complete. unfold Qeq, inject_Z. cbn [Qnum Qden].
      rewrite Z2Pos.id by exact P. lia.
    + apply Qcanon.Qred_identity. unfold inject_Z. cbn [Qnum Qden].
      apply Z.gcd_1_r.
Qed.

Lemma double_of_positive_safe (p : positive) :
  Z.pos p < 2 ^ 53 -> double_of_positive (Z.pos p) 1 = of_Z (Z.pos p).
Proof.
  intros B. unfold double_of_positive, floor_log2.
  change (Z.log2 1) with 0. rewrite Z.sub_0_r.
  pose proof (Z.log2_nonneg (Z.pos p)) as L0.
  pose proof (Z.log2_spec (Z.pos p) eq_refl) as [L1 L2].
  assert (L3 : Z.log2 (Z.pos p) < 53).
  { apply Z.log2_lt_pow2; [reflexivity|exact B]. }
  destruct (Z.leb_spec 0 (Z.log2 (Z.pos p))) as [_|]; [|lia].
  rewrite Z.mul_1_l.
  destruct (Z.leb_spec (2 ^ Z.log2 (Z.pos p)) (Z.pos p)) as [_|]; [|lia].
  rewrite Z.max_l by lia.
  set (e := Z.log2 (Z.pos p) - 52) in *.
  assert (He : e <= 0) by (unfold e; lia).
  destruct (Z.ltb_spec 971 e) as [|_]; [lia|].
  destruct (Z.eqb_spec e 971) as [|_]; [lia|].
  cbn [orb andb]. unfold of_Z. f_equal.
  destruct (Z.leb_spec 0 e) as [H|H].
  - assert (E0 : e = 0) by lia. rewrite E0.
    change (2 ^ 0) with 1. rewrite Z.mul_1_l, round_half_even_1.
    unfold scale2. cbn [Z.leb Z.compare]. rewrite Z.mul_1_r. reflexivity.
  - rewrite round_half_even_1. apply scale2_exact. exact He.
Qed.

(** A safe integer is its own Number value. *)
Lemma Number_value_safe (z : Z) :
  isSafeInteger z = true -> Number_value (inject_Z z) = of_Z z.
Proof.
  unfold isSafeInteger. intros H. apply andb_prop in H. destruct H as [H1 H2].
  apply Z.ltb_lt in H1, H2.
  unfold Number_value, inject_Z. cbn [Qnum Qden].
  destruct z as [|p|p]; [reflexivity| |].
  - apply double_of_positive_safe. exact H2.
  - rewrite double_of_positive_safe by lia. reflexivity.
Qed.

(* ------------------------------------------------------------------ *)
(** ** The wire format: [JSON.parse] inverts [JSON.stringify] *)

Lemma hex_val_hex_digit (n : N) :
  (n < 16)%N -> hex_val (hex_digit n) = Some (Z.of_N n).
Proof.
  intros H. unfold hex_val, hex_digit, is_digit.
  destruct (N.ltb_spec n 10);
    repeat (case_cmp; try lia; cbn [andb orb]); f_equal; lia.
Qed.

Lemma hex4_UnicodeEscape (c : N) :
  (c < 65536)%N ->
  hex4 (hex_digit (c / 4096)) (hex_digit ((c / 256) mod 16))
       (hex_digit ((c / 16) mod 16)) (hex_digit (c mod 16)) = Some c.
Proof.
  intros H. unfold hex4.
  rewrite !hex_val_hex_digit by lia.
  f_equal. lia.
Qed.

Lemma parse_escape_unit (c : N) (tail : jsstring) :
  parse_string_body (escape_unit c ++ tail)
  = cons_fst c (parse_string_body tail).
Proof.
  unfold escape_unit.
  repeat (case_cmp; [subst; reflexivity|]).
  destruct ((c <? 32)%N || is_leading_surrogate c || is_trailing_surrogate c)
    eqn:E.
  - assert (Hc : (c < 65536)%N).
    { unfold is_leading_surrogate, is_trailing_surrogate in E.
      revert E. repeat (case_cmp; try lia; cbn [andb orb]); discriminate. }
    unfold UnicodeEscape. cbn [app parse_string_body N.eqb Pos.eqb].
    rewrite hex4_UnicodeEscape by exact Hc. reflexivity.
  - apply orb_false_elim in E. destruct E as [E _].
    apply orb_false_elim in E. destruct E as [E _].
    cbn [app parse_string_body].
    repeat (case_cmp; try lia; try discriminate). reflexivity.
Qed.

Lemma parse_surrogate_pair (c d : N) (tail : jsstring) :
  is_leading_surrogate c = true -> is_trailing_surrogate d = true ->
  parse_string_body (c :: d :: tail)
  = cons_fst c (cons_fst d (parse_string_body tail)).
Proof.
  unfold is_leading_surrogate, is_trailing_surrogate. intros Hc Hd.
  apply andb_prop in Hc, Hd. destruct Hc as [Hc1 Hc2], Hd as [Hd1 Hd2].
  apply N.leb_le in Hc1, Hc2, Hd1, Hd2.
  cbn [parse_string_body].
  repeat (case_cmp; try lia). reflexivity.
Qed.

Lemma quote_units_cons (a : N) (r : jsstring) :
  quote_units (a :: r)
  = if is_leading_surrogate a then
      match r with
      | d :: r' =>
          if is_trailing_surrogate d then a :: d :: quote_units r'
          else escape_unit a ++ quote_units r
      | [] => escape_unit a
      end
    else escape_unit a ++ quote_units r.
Proof. reflexivity. Qed.

Lemma parse_quote_units (s tail : jsstring) :
  parse_string_body (quote_units s ++ 34%N :: tail) = Some (s, tail).
Proof.
  revert tail. induction s as [|a|a b l IHl IHbl] using list_ind2; intros tail.
  - reflexivity.
  - rewrite quote_units_cons. destruct (is_leading_surrogate a).
    + rewrite parse_escape_unit. reflexivity.
    + rewrite <- app_assoc, parse_escape_unit. reflexivity.
  - rewrite quote_units_cons. destruct (is_leading_surrogate a) eqn:Ha.
    + destruct (is_trailing_surrogate b) eqn:Hb.
      * cbn [app]. rewrite parse_surrogate_pair by assumption.
        rewrite IHl. reflexivity.
      * rewrite <- app_assoc, parse_escape_unit, IHbl. reflexivity.
    + rewrite <- app_assoc, parse_escape_unit, IHbl. reflexivity.
Qed.

Lemma scrub_low (c : N) (r : jsstring) :
  (c < 55296)%N -> scrub (c :: r) = c :: scrub r.
Proof.
  intros H. cbn [scrub].
  unfold is_leading_surrogate, is_trailing_surrogate.
  destruct (N.leb_spec 55296 c); [lia|].
  destruct (N.leb_spec 56320 c); [lia|]. reflexivity.
Qed.

Lemma hex_digit_low (n : N) : (n < 16)%N -> (hex_digit n < 55296)%N.
Proof.
  intros H. unfold hex_digit. destruct (N.ltb_spec n 10); lia.
Qed.

(** Encoding to UTF-8 and back leaves quoted text alone. *)
Lemma scrub_escape_unit (c : N) (tail : jsstring) :
  scrub (escape_unit c ++ tail) = escape_unit c ++ scrub tail.
Proof.
  unfold escape_unit.
  repeat (case_cmp; [subst; reflexivity|]).
  destruct ((c <? 32)%N || is_leading_surrogate c || is_trailing_surrogate c)
    eqn:E.
  - assert (Hc : (c < 65536)%N).
    { unfold is_leading_surrogate, is_trailing_surrogate in E.
      revert E. repeat (case_cmp; try lia; cbn [andb orb]); discriminate. }
    unfold UnicodeEscape. cbn [app].
    rewrite !scrub_low; try reflexivity; try apply hex_digit_low; lia.
  - apply orb_false_elim in E. destruct E as [E Ht].
    apply orb_false_elim in E. destruct E as [_ Hl].
    cbn [app scrub]. rewrite Hl, Ht. reflexivity.
Qed.

Lemma scrub_quote_units (s tail : jsstring) :
  scrub (quote_units s ++ tail) = quote_units s ++ scrub tail.
Proof.
  induction s as [|a|a b l IHl IHbl] using list_ind2.
  - reflexivity.
  - rewrite quote_units_cons. destruct (is_leading_surrogate a).
    + apply scrub_escape_unit.
    + rewrite <- !app_assoc. apply scrub_escape_unit.
  - rewrite quote_units_cons. destruct (is_leading_surrogate a) eqn:Ha.
    + destruct (is_trailing_surrogate b) eqn:Hb.
      * cbn [app scrub]. rewrite Ha, Hb, IHl. reflexivity.
      * rewrite <- !app_assoc, scrub_escape_unit, IHbl. reflexivity.
    + rewrite <- !app_assoc, scrub_escape_unit, IHbl. reflexivity.
Qed.

(** *** Decimal digits *)

Lemma digits_val_rev (l : list N) : digits_val (rev l) = lsd_val l.
Proof.
  unfold digits_val, lsd_val.
  rewrite <- (rev_involutive l) at 2.
  rewrite fold_left_rev_right. reflexivity.
Qed.

Lemma lsd_digits_val (fuel : nat) :
  forall n, 0 <= n < 2 ^ Z.of_nat fuel -> lsd_val (lsd_digits fuel n) = n.
Proof.
  induction fuel as [|f IH]; intros n H.
  - cbn in *. lia.
  - rewrite Nat2Z.inj_succ, Z.pow_succ_r in H by lia.
    cbn [lsd_digits]. unfold lsd_val in *. cbn [fold_right].
    destruct (Z.ltb_spec n 10).
    + cbn [fold_right]. unfold digit_val. lia.
    + rewrite IH by lia. unfold digit_val. lia.
Qed.

Lemma lsd_digits_Forall (fuel : nat) :
  forall n, 0 <= n -> Forall (fun d => is_digit d = true) (lsd_digits fuel n).
Proof.
  induction fuel as [|f IH]; intros n H; cbn [lsd_digits].
  - constructor.
  - constructor.
    + unfold is_digit. apply andb_true_intro. split; apply N.leb_le; lia.
    + destruct (Z.ltb_spec n 10); [constructor|]. apply IH. lia.
Qed.

Lemma lsd_digits_last (fuel : nat) :
  forall n, 0 < n < 2 ^ Z.of_nat fuel ->
  exists l d, lsd_digits fuel n = l ++ [d] /\ d <> 48%N.
Proof.
  induction fuel as [|f IH]; intros n H.
  - cbn in H. lia.
  - rewrite Nat2Z.inj_succ, Z.pow_succ_r in H by lia.
    cbn [lsd_digits]. destruct (Z.ltb_spec n 10).
    + exists [], (Z.to_N (48 + n mod 10)). split; [reflexivity|]. lia.
    + destruct (IH (n / 10)) as (l & d & E & Hd); [lia|].
      exists (Z.to_N (48 + n mod 10) :: l), d. rewrite E. split; auto.
Qed.

Lemma log2_fuel (n : Z) :
  0 < n -> 0 < n < 2 ^ Z.of_nat (S (Z.to_nat (Z.log2 n))).
Proof.
  intros H. split; [assumption|].
  rewrite Nat2Z.inj_succ, Z2Nat.id by apply Z.log2_nonneg.
  apply Z.log2_spec. assumption.
Qed.

Lemma decimal_digits_val (n : Z) : 0 <= n -> digits_val (decimal_digits n) = n.
Proof.
  intros H. unfold decimal_digits. rewrite digits_val_rev.
  destruct (Z.eq_dec n 0) as [->|Hn]; [reflexivity|].
  apply lsd_digits_val. pose proof (log2_fuel n). lia.
Qed.

Lemma decimal_digits_Forall (n : Z) :
  0 <= n -> Forall (fun d => is_digit d = true) (decimal_digits n).
Proof.
  intros H. unfold decimal_digits. apply Forall_rev.
  apply lsd_digits_Forall. assumption.
Qed.

Lemma decimal_digits_head (n : Z) :
  0 < n -> exists d l, decimal_digits n = d :: l /\ d <> 48%N.
Proof.
  intros H. unfold decimal_digits.
  destruct (lsd_digits_last _ n (log2_fuel n H)) as (l & d & E & Hd).
  exists d, (rev l). rewrite E, rev_app_distr. split; auto.
Qed.

Lemma span_digits_app (ds : list N) (c : N) (rest : jsstring) :
  Forall (fun d => is_digit d = true) ds -> is_digit c = false ->
  span_digits (ds ++ c :: rest) = (ds, c :: rest).
Proof.
  intros H Hc. induction H as [|d ds Hd _ IH]; cbn [app span_digits].
  - rewrite Hc. reflexivity.
  - rewrite Hd, IH. reflexivity.
Qed.

(** What [JSON.parse] makes of the digits of a non-negative integer that
    are followed by a closing brace. *)
Lemma parse_unsigned (n : Z) (rest : jsstring) :
  0 <= n ->
  exists d l, decimal_digits n = d :: l /\ d <> 45%N /\
  parse_number (decimal_digits n ++ 125%N :: rest)
  = Some (Number_value (inject_Z n), 125%N :: rest) /\
  (0 < n ->
   parse_number (45%N :: decimal_digits n ++ 125%N :: rest)
   = Some (Number_value (inject_Z (- n)), 125%N :: rest)).
Proof.
  intros H.
  assert (Hval := decimal_digits_val n H).
  assert (Hall := decimal_digits_Forall n H).
  destruct (Z.eq_dec n 0) as [->|Hn].
  - exists 48%N, []. repeat split; try reflexivity; lia.
  - destruct (decimal_digits_head n) as (d & l & E & Hd); [lia|].
    assert (Hdig : is_digit d = true).
    { rewrite E in Hall. inversion Hall; assumption. }
    assert (Hspan : span_digits ((d :: l) ++ 125%N :: rest)
                    = (d :: l, 125%N :: rest)).
    { rewrite <- E. apply span_digits_app; [assumption|reflexivity]. }
    assert (H45 : d <> 45%N).
    { intros ->. discriminate. }
    assert (Hq : scale10 (digits_val ((d :: l) ++ []))
                         (0 - Z.of_nat (List.length (@nil N)))
                 = inject_Z n).
    { rewrite app_nil_r, <- E, Hval. unfold scale10. cbn.
      rewrite Z.mul_1_r. reflexivity. }
    exists d, l. split; [assumption|]. split; [assumption|].
    rewrite E. split.
    + unfold parse_number. cbn [app].
      destruct (N.eqb_spec d 45); [contradiction|].
      destruct (N.eqb_spec d 48); [contradiction|].
      change (d :: l ++ 125%N :: rest) with ((d :: l) ++ 125%N :: rest).
      rewrite Hspan. cbn [N.eqb Pos.eqb take_exponent orb].
      rewrite Hq. reflexivity.
    + intros _. unfold parse_number. cbn [app N.eqb Pos.eqb].
      destruct (N.eqb_spec d 48); [contradiction|].
      change (d :: l ++ 125%N :: rest) with ((d :: l) ++ 125%N :: rest).
      rewrite Hspan. cbn [N.eqb Pos.eqb take_exponent orb].
      rewrite Hq. reflexivity.
Qed.

Lemma parse_Number_toString (z : Z) (rest : jsstring) :
  exists d l, Number_toString z = d :: l /\
  (is_digit d = true \/ d = 45%N) /\
  parse_number (Number_toString z ++ 125%N :: rest)
  = Some (Number_value (inject_Z z), 125%N :: rest).
Proof.
  unfold Number_toString. destruct (Z.ltb_spec z 0).
  - destruct (parse_unsigned (- z) rest) as (d & l & E & _ & _ & P); [lia|].
    exists 45%N, (decimal_digits (- z)). split; [reflexivity|].
    split; [right; reflexivity|].
    cbn [app]. rewrite P by lia. rewrite Z.opp_involutive. reflexivity.
  - destruct (parse_unsigned z rest) as (d & l & E & _ & P & _); [lia|].
    exists d, l. split; [assumption|]. split; [|assumption].
    left. pose proof (decimal_digits_Forall z H) as F.
    rewrite E in F. inversion F; assumption.
Qed.

(** *** The payload *)

Lemma stringify_payload_shape (url : jsstring) (chatId : Z) :
  stringify_payload url chatId
  = payload_head ++ quote_units url ++ payload_middle
    ++ Number_toString chatId ++ [125%N].
Proof.
  unfold stringify_payload, QuoteJSONString, payload_head, payload_middle.
  cbn [js list_ascii_of_string map N_of_ascii N_of_digits app].
  rewrite <- !app_assoc. reflexivity.
Qed.

Lemma scrub_low_app (l tail : jsstring) :
  Forall (fun c => (c < 55296)%N) l -> scrub (l ++ tail) = l ++ scrub tail.
Proof.
  induction 1 as [|c l Hc _ IH]; [reflexivity|].
  cbn [app]. rewrite scrub_low, IH by assumption. reflexivity.
Qed.

Lemma is_digit_low (c : N) : is_digit c = true -> (c < 55296)%N.
Proof.
  unfold is_digit. intros H. apply andb_prop in H. destruct H as [_ H].
  apply N.leb_le in H. lia.
Qed.

Lemma Number_toString_low (z : Z) :
  Forall (fun c => (c < 55296)%N) (Number_toString z).
Proof.
  assert (D : forall n, 0 <= n ->
              Forall (fun c => (c < 55296)%N) (decimal_digits n)).
  { intros n H. eapply Forall_impl; [|apply decimal_digits_Forall, H].
    apply is_digit_low. }
  unfold Number_toString. destruct (Z.ltb_spec z 0).
  - constructor; [lia|]. apply D. lia.
  - apply D. assumption.
Qed.

(** The text [sendToQueue] publishes survives the UTF-8 transport. *)
Lemma scrub_stringify_payload (url : jsstring) (chatId : Z) :
  scrub (stringify_payload url chatId) = stringify_payload url chatId.
Proof.
  rewrite stringify_payload_shape.
  rewrite (scrub_low_app payload_head)
    by (repeat constructor; unfold N.lt; reflexivity).
  rewrite scrub_quote_units.
  rewrite (scrub_low_app payload_middle)
    by (repeat constructor; unfold N.lt; reflexivity).
  rewrite (scrub_low_app (Number_toString chatId))
    by apply Number_toString_low.
  reflexivity.
Qed.

Lemma parse_value_number (f : nat) (d : N) (r : jsstring) :
  is_digit d = true \/ d = 45%N ->
  parse_value (S f) (d :: r)
  = match parse_number (d :: r) with
    | Some (n, r') => Some (JNumber n, r')
    | None => None
    end.
Proof.
  intros H.
  assert (B : (48 <= d <= 57)%N \/ d = 45%N).
  { destruct H as [H| ->]; [left|right; reflexivity].
    unfold is_digit in H. apply andb_prop in H. destruct H as [H1 H2].
    apply N.leb_le in H1, H2. lia. }
  cbn [parse_value skip_ws]. unfold is_ws.
  repeat (case_cmp; try lia; cbn [orb]). reflexivity.
Qed.

Lemma parse_value_string (f : nat) (r : jsstring) :
  parse_value (S f) (34%N :: r)
  = match parse_string_body r with
    | Some (str, r') => Some (JString str, r')
    | None => None
    end.
Proof. reflexivity. Qed.

Lemma parse_value_payload (f : nat) (url : jsstring) (chatId : Z)
  (rest : jsstring) :
  parse_value (S (S (S (S f))))
    (payload_head ++ quote_units url ++ payload_middle
     ++ Number_toString chatId ++ 125%N :: rest)
  = Some (JObject [(js "url", JString url);
                   (js "chatId", JNumber (Number_value (inject_Z chatId)))],
          rest).
Proof.
  destruct (parse_Number_toString chatId rest) as (d & l & E & Hd & P).
  remember (Number_toString chatId) as num eqn:Hnum.
  unfold payload_head, payload_middle.
  cbn [app parse_value expect skip_ws is_ws N.eqb Pos.eqb orb].
  cbn [parse_members expect skip_ws is_ws N.eqb Pos.eqb orb
       parse_string_body N.ltb N.compare Pos.compare Pos.compare_cont
       cons_fst].
  rewrite parse_value_string, parse_quote_units.
  cbn [parse_members expect skip_ws is_ws N.eqb Pos.eqb orb
       parse_string_body N.ltb N.compare Pos.compare Pos.compare_cont
       cons_fst].
  rewrite E in P |- *. cbn [app] in P |- *.
  rewrite parse_value_number by assumption.
  rewrite P.
  cbn [expect skip_ws is_ws N.eqb Pos.eqb orb cons_fst]. reflexivity.
Qed.

(** Queue round trip at the level of the wire text: the chat identifier
    comes back as the double nearest to it. *)
Lemma parse_stringify_payload (url : jsstring) (chatId : Z) :
  parse (stringify_payload url chatId)
  = Some (JObject [(js "url", JString url);
                   (js "chatId", JNumber (Number_value (inject_Z chatId)))]).
Proof.
  unfold parse. rewrite stringify_payload_shape.
  replace (payload_head ++ quote_units url ++ payload_middle
           ++ Number_toString chatId ++ [125%N])
    with (payload_head ++ quote_units url ++ payload_middle
          ++ Number_toString chatId ++ 125%N :: []) by reflexivity.
  cbn [Nat.add]. rewrite parse_value_payload. reflexivity.
Qed.

(** *** The fuel of the parser *)

Lemma skip_ws_length (s : jsstring) :
  (List.length (skip_ws s) <= List.length s)%nat.
Proof.
  induction s as [|c s IH]; cbn [skip_ws List.length]; [lia|].
  destruct (is_ws c); cbn [List.length]; lia.
Qed.

Lemma expect_length (c : N) (s r : jsstring) :
  expect c s = Some r -> (List.length r < List.length s)%nat.
Proof.
  unfold expect. pose proof (skip_ws_length s) as L.
  destruct (skip_ws s) as [|d t]; [discriminate|].
  destruct (d =? c)%N; [|discriminate].
  intros E. injection E as <-. cbn [List.length] in L. lia.
Qed.

Lemma cons_fst_Some {A B} (a : A) (o : option (list A * B)) l b :
  cons_fst a o = Some (l, b) ->
  exists l', o = Some (l', b) /\ l = a :: l'.
Proof.
  destruct o as [[l' b']|]; cbn; [|discriminate].
  intros E. injection E as <- <-. eauto.
Qed.

Lemma parse_string_body_length (s : jsstring) :
  forall x r, parse_string_body s = Some (x, r) ->
  (List.length r < List.length s)%nat.
Proof.
  remember (List.length s) as n eqn:Hn.
  assert (Hle : (List.length s <= n)%nat) by lia. clear Hn.
  revert s Hle. induction n as [|n IH]; intros s Hle x r E.
  - destruct s; [discriminate|cbn in Hle; lia].
  - destruct s as [|c t]; [discriminate|].
    cbn [List.length] in Hle. cbn [parse_string_body] in E.
    destruct (c =? 34)%N; [injection E as _ <-; cbn; lia|].
    destruct (c =? 92)%N.
    + destruct t as [|e r1]; [discriminate|]. cbn [List.length] in Hle.
      destruct (e =? 117)%N.
      * destruct r1 as [|h1 [|h2 [|h3 [|h4 r2]]]]; try discriminate.
        destruct (hex4 h1 h2 h3 h4); [|discriminate].
        apply cons_fst_Some in E. destruct E as (x' & E & _).
        cbn [List.length] in *. apply IH in E; lia.
      * destruct (simple_escape e); [|discriminate].
        apply cons_fst_Some in E. destruct E as (x' & E & _).
        cbn [List.length] in *. apply IH in E; lia.
    + destruct (c <? 32)%N; [discriminate|].
      apply cons_fst_Some in E. destruct E as (x' & E & _).
      cbn [List.length] in *. apply IH in E; lia.
Qed.

Lemma span_digits_length (s : jsstring) :
  forall ds r, span_digits s = (ds, r) ->
  List.length s = (List.length ds + List.length r)%nat.
Proof.
  induction s as [|c s IH]; intros ds r E; cbn [span_digits] in E.
  - injection E as <- <-. reflexivity.
  - destruct (is_digit c).
    + destruct (span_digits s) as [ds' r'] eqn:S.
      injection E as <- <-. cbn [List.length]. rewrite (IH ds' r'); auto.
    + injection E as <- <-. reflexivity.
Qed.

Lemma take_exponent_length (s : jsstring) e r :
  take_exponent s = Some (e, r) -> (List.length r <= List.length s)%nat.
Proof.
  unfold take_exponent. destruct s as [|c t].
  - intros E. injection E as _ <-. lia.
  - destruct ((c =? 101)%N || (c =? 69)%N).
    + assert (T : (List.length (snd (take_sign t)) <= List.length t)%nat).
      { unfold take_sign. destruct t as [|d t']; [cbn; lia|].
        destruct d as [|p]; [cbn; lia|].
        do 6 (destruct p as [p|p|]; try (cbn; lia)). }
      destruct (take_sign t) as [neg r1]. cbn [snd] in T.
      destruct (span_digits r1) as [ds rest] eqn:S.
      apply span_digits_length in S.
      destruct ds; [discriminate|].
      intros E. injection E as _ <-. cbn [List.length] in *. lia.
    + intros E. injection E as _ <-. lia.
Qed.

Lemma parse_number_length (s : jsstring) n r :
  parse_number s = Some (n, r) -> (List.length r < List.length s)%nat.
Proof.
  unfold parse_number.
  set (p := match s with
            | c :: r0 => if (c =? 45)%N then (true, r0) else (false, s)
            | [] => (false, s)
            end).
  assert (P : (List.length (snd p) <= List.length s)%nat).
  { subst p. destruct s as [|c t]; [cbn; lia|].
    destruct (c =? 45)%N; cbn; lia. }
  destruct p as [neg r0]. cbn [snd] in P.
  set (ip := match r0 with
             | c :: r1 =>
                 if (c =? 48)%N then Some ([48%N], r1)
                 else match span_digits r0 with
                      | ([], _) => None
                      | q => Some q
                      end
             | [] => None
             end).
  assert (I : forall ds r1, ip = Some (ds, r1) ->
                            (List.length r1 < List.length r0)%nat).
  { subst ip. intros ds r1. destruct r0 as [|c t]; [discriminate|].
    destruct (c =? 48)%N.
    - intros E. injection E as _ <-. cbn; lia.
    - destruct (span_digits (c :: t)) as [ds' r'] eqn:S.
      apply span_digits_length in S.
      destruct ds'; [discriminate|].
      intros E. injection E as _ <-. cbn [List.length] in *. lia. }
  destruct ip as [[ds r1]|]; [|discriminate].
  specialize (I ds r1 eq_refl).
  set (fp := match r1 with
             | c :: r2 =>
                 if (c =? 46)%N then
                   match span_digits r2 with
                   | ([], _) => None
                   | q => Some q
                   end
                 else Some ([], r1)
             | [] => Some ([], r1)
             end).
  assert (F : forall fs r2, fp = Some (fs, r2) ->
                            (List.length r2 <= List.length r1)%nat).
  { subst fp. intros fs r2. destruct r1 as [|c t].
    - intros E. injection E as _ <-. lia.
    - destruct (c =? 46)%N.
      + destruct (span_digits t) as [ds' r'] eqn:S.
        apply span_digits_length in S.
        destruct ds'; [discriminate|].
        intros E. injection E as _ <-. cbn [List.length] in *. lia.
      + intros E. injection E as _ <-. lia. }
  destruct fp as [[fs r2]|]; [|discriminate].
  specialize (F fs r2 eq_refl).
  destruct (take_exponent r2) as [[e r3]|] eqn:X; [|discriminate].
  apply take_exponent_length in X.
  intros E. injection E as _ <-. lia.
Qed.

Lemma strip_prefix_length (w s r : jsstring) :
  strip_prefix w s = Some r ->
  List.length s = (List.length w + List.length r)%nat.
Proof.
  revert s. induction w as [|a w IH]; intros s E; cbn [strip_prefix] in E.
  - injection E as <-. reflexivity.
  - destruct s as [|c t]; [discriminate|].
    destruct (c =? a)%N; [|discriminate].
    cbn [List.length]. rewrite (IH t E). reflexivity.
Qed.

Lemma literal_length (w : string) v s v' r :
  literal w v s = Some (v', r) ->
  (List.length r <= List.length s)%nat.
Proof.
  unfold literal. destruct (strip_prefix (js w) s) as [r'|] eqn:S;
    [|discriminate].
  apply strip_prefix_length in S. intros E. injection E as _ <-. lia.
Qed.

Lemma literal_shorter (w : string) v s v' r :
  js w <> [] -> literal w v s = Some (v', r) ->
  (List.length r < List.length s)%nat.
Proof.
  unfold literal. intros Hw.
  destruct (strip_prefix (js w) s) as [r'|] eqn:S; [|discriminate].
  apply strip_prefix_length in S. intros E. injection E as _ <-.
  destruct (js w); [contradiction|]. cbn [List.length] in S. lia.
Qed.

Lemma parse_value_step (f : nat) :
  steady parse_elements f -> steady parse_members f ->
  steady parse_value (S f).
Proof.
  intros SE SM s v r E. cbn [parse_value] in E.
  pose proof (skip_ws_length s) as L.
  destruct (skip_ws s) as [|c r0] eqn:W; [discriminate|].
  cbn [List.length] in L.
  destruct (c =? 34)%N eqn:C1.
  { destruct (parse_string_body r0) as [[str r']|] eqn:B; [|discriminate].
    injection E as <- <-. pose proof (parse_string_body_length _ _ _ B).
    split; [lia|]. intros [|g] Hg; [lia|].
    cbn [parse_value]. rewrite W, C1, B. reflexivity. }
  destruct (c =? 91)%N eqn:C2.
  { destruct (expect 93 r0) as [r'|] eqn:X.
    - injection E as <- <-. pose proof (expect_length _ _ _ X).
      split; [lia|]. intros [|g] Hg; [lia|].
      cbn [parse_value]. rewrite W, C1, C2, X. reflexivity.
    - destruct (parse_elements f r0) as [[vs r']|] eqn:B; [|discriminate].
      injection E as <- <-. destruct (SE _ _ _ B) as [Hl Hf].
      split; [lia|]. intros [|g] Hg; [lia|].
      cbn [parse_value]. rewrite W, C1, C2, X, Hf by lia. reflexivity. }
  destruct (c =? 123)%N eqn:C3.
  { destruct (expect 125 r0) as [r'|] eqn:X.
    - injection E as <- <-. pose proof (expect_length _ _ _ X).
      split; [lia|]. intros [|g] Hg; [lia|].
      cbn [parse_value]. rewrite W, C1, C2, C3, X. reflexivity.
    - destruct (parse_members f r0) as [[ms r']|] eqn:B; [|discriminate].
      injection E as <- <-. destruct (SM _ _ _ B) as [Hl Hf].
      split; [lia|]. intros [|g] Hg; [lia|].
      cbn [parse_value]. rewrite W, C1, C2, C3, X, Hf by lia. reflexivity. }
  destruct (c =? 110)%N eqn:C4.
  { pose proof E as Hl.
    apply literal_shorter in Hl; [|vm_compute; intros Hn; discriminate Hn].
    cbn [List.length] in Hl.
    split; [lia|]. intros [|g] Hg; [lia|].
    cbn [parse_value]. rewrite W, C1, C2, C3, C4. exact E. }
  destruct (c =? 116)%N eqn:C5.
  { pose proof E as Hl.
    apply literal_shorter in Hl; [|vm_compute; intros Hn; discriminate Hn].
    cbn [List.length] in Hl.
    split; [lia|]. intros [|g] Hg; [lia|].
    cbn [parse_value]. rewrite W, C1, C2, C3, C4, C5. exact E. }
  destruct (c =? 102)%N eqn:C6.
  { pose proof E as Hl.
    apply literal_shorter in Hl; [|vm_compute; intros Hn; discriminate Hn].
    cbn [List.length] in Hl.
    split; [lia|]. intros [|g] Hg; [lia|].
    cbn [parse_value]. rewrite W, C1, C2, C3, C4, C5, C6. exact E. }
  destruct (parse_number (c :: r0)) as [[n r']|] eqn:B; [|discriminate].
  injection E as <- <-. pose proof (parse_number_length _ _ _ B) as Hl.
  cbn [List.length] in Hl.
  split; [lia|]. intros [|g] Hg; [lia|].
  cbn [parse_value]. rewrite W, C1, C2, C3, C4, C5, C6, B. reflexivity.
Qed.

Lemma parse_elements_step (f : nat) :
  steady parse_value f -> steady parse_elements f ->
  steady parse_elements (S f).
Proof.
  intros SV SE s vs r E. cbn [parse_elements] in E.
  destruct (parse_value f s) as [[v r1]|] eqn:B; [|discriminate].
  destruct (SV _ _ _ B) as [Hl Hf].
  destruct (expect 44 r1) as [r2|] eqn:X.
  - apply cons_fst_Some in E. destruct E as (vs' & E & ->).
    pose proof (expect_length _ _ _ X).
    destruct (SE _ _ _ E) as [Hl' Hf'].
    split; [lia|]. intros [|g] Hg; [lia|].
    cbn [parse_elements]. rewrite Hf, X, Hf' by lia. reflexivity.
  - destruct (expect 93 r1) as [r2|] eqn:Y; [|discriminate].
    injection E as <- <-. pose proof (expect_length _ _ _ Y).
    split; [lia|]. intros [|g] Hg; [lia|].
    cbn [parse_elements]. rewrite Hf, X, Y by lia. reflexivity.
Qed.

Lemma parse_members_step (f : nat) :
  steady parse_value f -> steady parse_members f ->
  steady parse_members (S f).
Proof.
  intros SV SM s ms r E. cbn [parse_members] in E.
  destruct (expect 34 s) as [r0|] eqn:X0; [|discriminate].
  pose proof (expect_length _ _ _ X0).
  destruct (parse_string_body r0) as [[key r1]|] eqn:K; [|discriminate].
  pose proof (parse_string_body_length _ _ _ K).
  destruct (expect 58 r1) as [r2|] eqn:X1; [|discriminate].
  pose proof (expect_length _ _ _ X1).
  destruct (parse_value f r2) as [[v r3]|] eqn:B; [|discriminate].
  destruct (SV _ _ _ B) as [Hl Hf].
  destruct (expect 44 r3) as [r4|] eqn:X.
  - apply cons_fst_Some in E. destruct E as (ms' & E & ->).
    pose proof (expect_length _ _ _ X).
    destruct (SM _ _ _ E) as [Hl' Hf'].
    split; [lia|]. intros [|g] Hg; [lia|].
    cbn [parse_members]. rewrite X0, K, X1, Hf, X, Hf' by lia. reflexivity.
  - destruct (expect 125 r3) as [r4|] eqn:Y; [|discriminate].
    injection E as <- <-. pose proof (expect_length _ _ _ Y).
    split; [lia|]. intros [|g] Hg; [lia|].
    cbn [parse_members]. rewrite X0, K, X1, Hf, X, Y by lia. reflexivity.
Qed.

Lemma parsers_steady (f : nat) :
  steady parse_value f /\ steady parse_elements f /\ steady parse_members f.
Proof.
  induction f as [|f (SV & SE & SM)].
  - repeat split; discriminate.
  - split; [apply parse_value_step; assumption|].
    split; [apply parse_elements_step|apply parse_members_step]; assumption.
Qed.

(** The fuel [parse] gives is enough: a text that some fuel parses is
    parsed, to the same value, by [parse]; so [None] is a syntax error. *)
Lemma parse_fuel_enough (f : nat) (text : jsstring) (v : value) :
  parse_value f text = Some (v, []) -> parse text = Some v.
Proof.
  intros E. destruct (parsers_steady f) as (SV & _).
  destruct (SV _ _ _ E) as [_ Hf].
  unfold parse. rewrite Hf by (cbn [List.length]; lia). reflexivity.
Qed.

(* ------------------------------------------------------------------ *)
(** ** The worker *)

(** A template literal either completes, silently, or throws. *)
Lemma interpolate_cases (v : option value) :
  (returns (interpolate v) = true /\ interpolate v = ret tt)
  \/ (returns (interpolate v) = false /\ interpolate v = throw TypeError).
Proof.
  destruct v as [x|]; [|left; split; reflexivity].
  unfold interpolate. destruct (ToString_completes x);
    [left|right]; split; reflexivity.
Qed.

Ltac by_url url :=
  destruct (interpolate_cases url) as [[?R ?E]|[?R ?E]];
  unfold rethrown; rewrite ?R, ?E.

Lemma checkPageSpeed_trace env url :
  let t := fst (checkPageSpeed env url) in
  acks t = [] /\ delivered t = false /\ recipients t = []
  /\ analyses t = [url]
  /\ (forall n, chrome_live n t = (leaked env + n)%nat)
  /\ kills t = (if chrome_launch env then [chrome_kill env] else [])
  /\ returns (checkPageSpeed env url) = analysis_ok env.
Proof.
  unfold analysis_ok, leaked, checkPageSpeed.
  destruct env as [l lh w k ? ? ? ? ? ?].
  cbn [chrome_launch lighthouse report_write chrome_kill].
  by_url url;
    destruct l, lh as [[]| |[] s], w, k; cbn; repeat split; reflexivity.
Qed.

Lemma deliver_trace env s chatId :
  let t := fst (deliver env s chatId) in
  acks t = [] /\ analyses t = []
  /\ (forall n, chrome_live n t = n) /\ kills t = []
  /\ delivered t = delivery_ok env
  /\ Forall (eq chatId) (recipients t)
  /\ returns (deliver env s chatId) = delivery_ok env && unlink env.
Proof.
  unfold delivery_ok.
  destruct env as [? ? ? ? a b c d e f].
  cbn [pdf_create pdf_draw pdf_save pdf_write send_document unlink].
  destruct a, b, c, d, e, f; cbn; repeat split;
    try reflexivity; repeat constructor.
Qed.

Lemma attempt_returns env url chatId :
  snd (attempt env url chatId) = Returned tt.
Proof.
  unfold attempt. rewrite snd_try_catch.
  destruct (snd _) as [[]|e]; reflexivity.
Qed.

(** What one processing attempt does, whatever the outside world
    answers: no acknowledgement, Chrome gone at the end unless its [kill]
    failed, a delivery exactly when every step up to it succeeds, and the
    error logged otherwise. *)
Lemma attempt_trace env url chatId :
  let t := fst (attempt env url chatId) in
  acks t = [] /\ (forall n, chrome_live n t = (leaked env + n)%nat)
  /\ delivered t = analysis_ok env && delivery_ok env
  /\ errors_logged t
     = (if analysis_ok env && delivery_ok env && unlink env then []
        else match lighthouse env, chrome_launch env && chrome_kill env with
             | LhThrows false, true => [rethrown url AnalysisFailedUnknown]
             | LhThrows _, true
             | LhNoResult, true
             | LhReport false _, true => [rethrown url AnalysisFailed]
             | LhReport true _, true =>
                 if report_write env then [LibraryError]
                 else [rethrown url AnalysisFailed]
             | _, false => [LibraryError]
             end).
Proof.
  unfold analysis_ok, delivery_ok, leaked, attempt, checkPageSpeed.
  destruct env as [l lh w k a b c d e f].
  cbn [chrome_launch lighthouse report_write chrome_kill pdf_create
       pdf_draw pdf_save pdf_write send_document unlink].
  by_url url;
    destruct l, lh as [[]| |[] s], w, k, a, b, c, d, e, f;
    repeat split; reflexivity.
Qed.

Lemma attempt_analyses env url chatId :
  analyses (fst (attempt env url chatId)) = [url].
Proof.
  unfold attempt. rewrite fst_try_catch, snd_bind, fst_bind.
  destruct (checkPageSpeed_trace env url) as (_ & _ & _ & A & _).
  unfold analyses in *. rewrite !flat_map_app, A.
  destruct (snd (checkPageSpeed env url)) as [s|e].
  - destruct (deliver_trace env s chatId) as (_ & B & _).
    unfold analyses in B. rewrite B.
    destruct (snd (deliver env s chatId)); reflexivity.
  - reflexivity.
Qed.

Lemma attempt_recipients env url chatId :
  Forall (eq chatId) (recipients (fst (attempt env url chatId))).
Proof.
  unfold attempt. rewrite fst_try_catch, snd_bind, fst_bind.
  destruct (checkPageSpeed_trace env url) as (_ & _ & R & _).
  unfold recipients in *. rewrite !flat_map_app, R.
  destruct (snd (checkPageSpeed env url)) as [s|e].
  - destruct (deliver_trace env s chatId) as (_ & _ & _ & _ & _ & B & _).
    unfold recipients in B. cbn [app]. apply Forall_app. split; [exact B|].
    destruct (snd (deliver env s chatId)); constructor.
  - constructor.
Qed.

Lemma attempt_head env url chatId :
  exists rest,
    fst (attempt env url chatId) = CallCheckPageSpeed url :: rest.
Proof.
  unfold attempt, checkPageSpeed.
  rewrite fst_try_catch, fst_bind, fst_bind. cbn [emit fst app].
  eexists. reflexivity.
Qed.

Lemma printable_interpolate (v : value) :
  printable v = true ->
  interpolate (get (js "url") v) = ret tt
  /\ interpolate (get (js "chatId") v) = ret tt.
Proof.
  unfold printable. intros H. apply andb_prop in H. destruct H as [H1 H2].
  destruct (interpolate_cases (get (js "url") v)) as [[_ E1]|[R _]];
    [|congruence].
  destruct (interpolate_cases (get (js "chatId") v)) as [[_ E2]|[R _]];
    [|congruence].
  split; assumption.
Qed.

(** The callback on a payload that parses to something other than
    [null] and whose members can be logged: the log line, the attempt,
    the acknowledgement. *)
Lemma consumeCallback_parsed env m v :
  JSON.parse (Buffer_toString (content m)) = Some v -> v <> JNull ->
  printable v = true ->
  consumeCallback env (Some m)
  = (ConsoleLog
       :: fst (attempt env (get (js "url") v) (get (js "chatId") v))
       ++ [Ack (deliveryTag m)],
     Returned tt).
Proof.
  intros P Hv Hp. unfold consumeCallback, JSON_parse. rewrite P.
  assert (D : destructure v
              = ret (get (js "url") v, get (js "chatId") v)).
  { destruct v; try reflexivity. contradiction. }
  destruct (printable_interpolate v Hp) as [E1 E2].
  cbn [ret bind app]. rewrite D. cbn [ret bind app]. rewrite E1, E2.
  cbn [ret bind app emit].
  fold (deliver env).
  change (try_catch _ _)
    with (attempt env (get (js "url") v) (get (js "chatId") v)).
  rewrite (exec_eta (attempt env _ _)), attempt_returns.
  cbn [app]. reflexivity.
Qed.

(** On a payload whose [url] or [chatId] cannot be converted to a
    string the log line throws: nothing is attempted, nothing
    acknowledged. *)
Lemma consumeCallback_unprintable env m v :
  JSON.parse (Buffer_toString (content m)) = Some v -> v <> JNull ->
  printable v = false ->
  consumeCallback env (Some m) = ([], Thrown TypeError).
Proof.
  intros P Hv Hp. unfold consumeCallback, JSON_parse. rewrite P.
  assert (D : destructure v
              = ret (get (js "url") v, get (js "chatId") v)).
  { destruct v; try reflexivity. contradiction. }
  cbn [ret bind app]. rewrite D. cbn [ret bind app].
  unfold printable in Hp.
  destruct (interpolate_cases (get (js "url") v)) as [[R1 E1]|[R1 E1]];
    rewrite E1; [|reflexivity].
  destruct (interpolate_cases (get (js "chatId") v)) as [[R2 E2]|[R2 E2]];
    rewrite E2; [|reflexivity].
  rewrite R1, R2 in Hp. discriminate Hp.
Qed.

(** What the callback does, for any message. *)
Lemma consumeCallback_cases env m :
  (exists v,
     JSON.parse (Buffer_toString (content m)) = Some v /\ v <> JNull
     /\ printable v = true
     /\ consumeCallback env (Some m)
        = (ConsoleLog
             :: fst (attempt env (get (js "url") v) (get (js "chatId") v))
             ++ [Ack (deliveryTag m)],
           Returned tt))
  \/ exists e, consumeCallback env (Some m) = ([], Thrown e).
Proof.
  destruct (JSON.parse (Buffer_toString (content m))) as [v|] eqn:P.
  - assert (N : v = JNull \/ v <> JNull).
    { destruct v; [left; reflexivity|right; discriminate ..]. }
    destruct N as [->|Hv].
    + right. exists TypeError. unfold consumeCallback, JSON_parse.
      rewrite P. reflexivity.
    + destruct (printable v) eqn:Hp.
      * left. exists v. repeat split; try assumption.
        apply consumeCallback_parsed; assumption.
      * right. exists TypeError.
        apply (consumeCallback_unprintable env m v); assumption.
  - right. exists SyntaxError. unfold consumeCallback, JSON_parse.
    rewrite P. reflexivity.
Qed.

Lemma consumeCallback_unparsed env m :
  JSON.parse (Buffer_toString (content m)) = None ->
  consumeCallback env (Some m) = ([], Thrown SyntaxError).
Proof.
  intros P. unfold consumeCallback, JSON_parse. rewrite P. reflexivity.
Qed.

Lemma consumeCallback_null env m :
  JSON.parse (Buffer_toString (content m)) = Some JNull ->
  consumeCallback env (Some m) = ([], Thrown TypeError).
Proof.
  intros P. unfold consumeCallback, JSON_parse. rewrite P. reflexivity.
Qed.




(** C3: on an entry whose content is not JSON, [JSON.parse] throws
    before the [try] block is entered: the callback rejects without any
    external call, no acknowledgement is ever issued for the entry, and,
    the prefetch count being 1, the consumer can make no further move:
    the next entry is never delivered. *)
Theorem malformed_entry_never_resolved env wenv :
  consumeCallback env (Some malformed_message) = ([], Thrown SyntaxError)
  /\ acks (fst (consumeCallback env (Some malformed_message))) = []
  /\ run 1 wenv (initial [malformed_message; example_message_2]) [Deliver]
     = Some stuck_state
  /\ forall mv, step 1 wenv stuck_state mv = None.
Proof.
  assert (E : forall e, consumeCallback e (Some malformed_message)
                        = ([], Thrown SyntaxError)).
  { intros e. apply consumeCallback_unparsed. vm_compute. reflexivity. }
  rewrite E. split; [reflexivity|]. split; [reflexivity|]. split.
  - cbn [run step initial ready may_deliver unacked Nat.eqb orb
         List.length Nat.ltb Nat.leb running history app].
    rewrite E. reflexivity.
  - intros [|[|i]]; reflexivity.
Qed.

(** C6: whatever fails during the analysis, the report generation or the
    delivery of an entry, the callback resolves (nothing escapes it), the
    entry is acknowledged exactly once, and the error is logged once.
    The entry is one whose processing begins: its payload parses to a
    value other than [null] whose [url] and [chatId] the log line before
    the [try] can print. *)
Theorem processing_errors_contained env m v :
  JSON.parse (Buffer_toString (content m)) = Some v -> v <> JNull ->
  printable v = true ->
  returns (consumeCallback env (Some m)) = true
  /\ acks (fst (consumeCallback env (Some m))) = [deliveryTag m]
  /\ List.length (errors_logged (fst (consumeCallback env (Some m))))
     = (if analysis_ok env && delivery_ok env && unlink env then 0 else 1)%nat.
Proof.
  intros P Hv Hp. rewrite (consumeCallback_parsed env m v P Hv Hp).
  destruct (attempt_trace env (get (js "url") v) (get (js "chatId") v))
    as (A & _ & _ & L).
  unfold returns. cbn [fst snd]. split; [reflexivity|].
  unfold acks, errors_logged in *. cbn [flat_map app].
  rewrite !flat_map_app, A, L. cbn [flat_map app]. split; [reflexivity|].
  rewrite app_nil_r.
  destruct (analysis_ok env && delivery_ok env && unlink env); [reflexivity|].
  destruct (lighthouse env) as [[]| |[] ?],
           (chrome_launch env && chrome_kill env);
    try reflexivity.
  destruct (report_write env); reflexivity.
Qed.

(** The audit throws: the callback resolves all the same. *)
Lemma processing_errors_contained_witness :
  returns (consumeCallback env_analysis_fails (Some example_message)) = true
  /\ acks (fst (consumeCallback env_analysis_fails (Some example_message)))
     = [1%N]
  /\ List.length
       (errors_logged
          (fst (consumeCallback env_analysis_fails (Some example_message))))
     = 1%nat.
Proof.
  apply (processing_errors_contained env_analysis_fails example_message
           (JObject [(js "url", JString example_url);
                     (js "chatId", JNumber (of_Z 42))])).
  - vm_compute. reflexivity.
  - discriminate.
  - reflexivity.
Defined.

(** C7: on every exit of [checkPageSpeed] (a value returned, an exception
    of the audit, an invalid result, a failure to write the report) the
    Chrome that was launched is killed, once, as the last thing the
    function does; when the launch itself fails there is nothing to kill.
    No Chrome is alive afterwards, unless the call of [kill] itself
    fails.  In the worker the same holds when an entry is acknowledged,
    that is, before the next entry can be delivered. *)
Theorem chrome_killed_on_every_exit env url :
  let t := fst (checkPageSpeed env url) in
  kills t = (if chrome_launch env then [chrome_kill env] else [])
  /\ chrome_live 0 t
     = (if chrome_launch env && negb (chrome_kill env) then 1 else 0)%nat
  /\ (if chrome_launch env
      then last t ConsoleLog = ChromeKill (chrome_kill env)
      else t = [CallCheckPageSpeed url; ChromeLaunch false])
  /\ forall msg,
       chrome_at_ack 0 (fst (consumeCallback env msg))
       = map (fun _ => if chrome_launch env && negb (chrome_kill env)
                       then 1 else 0)%nat
             (acks (fst (consumeCallback env msg))).
Proof.
  cbv zeta.
  destruct (checkPageSpeed_trace env url) as (_ & _ & _ & _ & L & K & _).
  split; [exact K|]. split; [rewrite L; apply Nat.add_0_r|]. split.
  - unfold checkPageSpeed. destruct env as [l lh w k ? ? ? ? ? ?].
    cbn [chrome_launch chrome_kill lighthouse report_write].
    by_url url; destruct l, lh as [[]| |[] s], w, k; reflexivity.
  - intros [m|]; [|reflexivity].
    destruct (consumeCallback_cases env m) as [(v & _ & _ & _ & E)|[e E]];
      rewrite E; [|reflexivity].
    destruct (attempt_trace env (get (js "url") v) (get (js "chatId") v))
      as (A & C & _).
    cbn [fst app chrome_at_ack]. unfold acks in *. cbn [flat_map app].
    rewrite chrome_at_ack_app, flat_map_app, A, C,
      (chrome_at_ack_no_acks _ _ A).
    rewrite Nat.add_0_r. reflexivity.
Qed.

(* ------------------------------------------------------------------ *)
(** ** [sendToQueue] and the round trip through the queue *)

Lemma sendToQueue_trace env u c :
  let t := fst (sendToQueue env u c) in
  calls_sendToQueue t = [(u, c)]
  /\ published t
     = (if transport_ok env then [Buffer_from (stringify_payload u c)]
        else [])
  /\ returns (sendToQueue env u c) = send_ok env.
Proof.
  unfold send_ok, transport_ok. destruct env as [a b d e f].
  cbn [Producer.connect Producer.create_channel Producer.assert_queue
       channel_close connection_close].
  destruct a, b, d, e, f; repeat split; reflexivity.
Qed.

(** C5: what [sendToQueue] publishes for a URL and a chat identifier is
    one message; the worker parses its content to an object with exactly
    the two members [url] and [chatId], whose values are the URL and the
    chat identifier that were passed; the callback analyses that URL and
    sends the report to that chat identifier.  (Chat identifiers are
    integers that a JavaScript number holds exactly.) *)
Theorem queue_round_trip url chatId senv wenv tag :
  isSafeInteger chatId = true ->
  let wire := Buffer_from (stringify_payload url chatId) in
  let msg := {| deliveryTag := tag; content := wire |} in
  published (fst (sendToQueue senv url chatId))
  = (if transport_ok senv then [wire] else [])
  /\ JSON.parse (Buffer_toString wire)
     = Some (JObject [(js "url", JString url);
                      (js "chatId", JNumber (of_Z chatId))])
  /\ (exists rest,
        fst (consumeCallback wenv (Some msg))
        = ConsoleLog :: CallCheckPageSpeed (Some (JString url)) :: rest)
  /\ Forall (eq (Some (JNumber (of_Z chatId))))
            (recipients (fst (consumeCallback wenv (Some msg)))).
Proof.
  intros Safe. cbv zeta.
  assert (P : JSON.parse
                (Buffer_toString (Buffer_from (stringify_payload url chatId)))
              = Some (JObject [(js "url", JString url);
                               (js "chatId", JNumber (of_Z chatId))])).
  { unfold Buffer_toString, Buffer_from. cbn [utf8].
    rewrite scrub_stringify_payload, parse_stringify_payload.
    rewrite (Number_value_safe chatId Safe). reflexivity. }
  split; [apply sendToQueue_trace|]. split; [exact P|].
  rewrite (consumeCallback_parsed wenv
             {| deliveryTag := tag;
                content := Buffer_from (stringify_payload url chatId) |}
             _ P) by (discriminate || reflexivity).
  change (get (js "url") _) with (Some (JString url)).
  change (get (js "chatId") _) with (Some (JNumber (of_Z chatId))).
  cbn [fst]. split.
  - destruct (attempt_head wenv (Some (JString url))
                (Some (JNumber (of_Z chatId)))) as [rest E].
    rewrite E. eexists. reflexivity.
  - unfold recipients. cbn [flat_map app]. rewrite flat_map_app.
    apply Forall_app. split; [apply attempt_recipients|constructor].
Qed.

(** The round trip of [https://example.com] and chat 42. *)
Lemma queue_round_trip_witness :
  JSON.parse (Buffer_toString (content example_message))
  = Some (JObject [(js "url", JString example_url);
                   (js "chatId", JNumber (of_Z 42))]).
Proof.
  exact (proj1 (proj2 (queue_round_trip example_url 42 send_env_ok env_ok 1
                         eq_refl))).
Defined.

(* ------------------------------------------------------------------ *)
(** ** The matcher ticks *)

Lemma try_send_db_trace env u c :
  let t := fst (try_send_db env u c) in
  returns (try_send_db env u c) = true
  /\ calls_sendToQueue t = [(u, c)]
  /\ published t
     = (if transport_ok env then [Buffer_from (stringify_payload u c)]
        else [])
  /\ errors_logged t = (if send_ok env then [] else [LibraryError]).
Proof.
  unfold send_ok, transport_ok. destruct env as [a b d e f].
  cbn [Producer.connect Producer.create_channel Producer.assert_queue
       channel_close connection_close].
  destruct a, b, d, e, f; repeat split; reflexivity.
Qed.

Lemma try_send_mem_trace env u c :
  let t := fst (try_send_mem env u c) in
  returns (try_send_mem env u c) = true
  /\ calls_sendToQueue t = [(u, c)]
  /\ published t
     = (if transport_ok env then [Buffer_from (stringify_payload u c)]
        else [])
  /\ errors_logged t = (if send_ok env then [] else [LibraryError]).
Proof.
  unfold send_ok, transport_ok. destruct env as [a b d e f].
  cbn [Producer.connect Producer.create_channel Producer.assert_queue
       channel_close connection_close].
  destruct a, b, d, e, f; repeat split; reflexivity.
Qed.

(** The ticks as loops over the bodies named above. *)
Lemma tick_db_unfold db now senv :
  tick_db db true now senv
  = (DbFindAll true :: fst (for_of (tick_db_body senv) 0 (due_rows now db)),
     snd (for_of (tick_db_body senv) 0 (due_rows now db))).
Proof.
  unfold tick_db. cbn [call bind app].
  change (for_of _ 0 _) with (for_of (tick_db_body senv) 0 (due_rows now db)).
  destruct (for_of (tick_db_body senv) 0 (due_rows now db)). reflexivity.
Qed.

Lemma tick_mem_unfold store now senv :
  tick_mem store now senv = for_of (tick_mem_body now senv) 0 store.
Proof.
  unfold tick_mem. generalize 0%nat.
  induction store as [|[k e] s IH]; intros i; [reflexivity|].
  cbn [for_of]. rewrite IH. reflexivity.
Qed.

Lemma index_tick_unfold store now wenv :
  Index.tick store now wenv = for_of (index_tick_body now wenv) 0 store.
Proof.
  unfold Index.tick. generalize 0%nat.
  induction store as [|[k e] s IH]; intros i; [reflexivity|].
  cbn [for_of]. rewrite IH. reflexivity.
Qed.

Section TickDb.

Variables (db : Table) (now : Date) (senv : nat -> SendEnv).

Lemma tick_db_returns : returns (tick_db db true now senv) = true.
Proof.
  rewrite tick_db_unfold. unfold returns. cbn [snd].
  apply (for_of_returns (tick_db_body senv)).
  intros i x. apply try_send_db_trace.
Qed.

Lemma tick_db_calls :
  calls_sendToQueue (fst (tick_db db true now senv))
  = map (fun r => (url r, chatId r)) (due_rows now db).
Proof.
  rewrite tick_db_unfold. cbn [fst].
  change (calls_sendToQueue (DbFindAll true :: ?t))
    with (calls_sendToQueue t).
  rewrite (for_of_collect calls_sendToQueue (tick_db_body senv)
             (fun _ r => [(url r, chatId r)])).
  - apply collect_map.
  - intros; apply flat_map_app.
  - reflexivity.
  - intros i x. apply try_send_db_trace.
  - intros i x. apply try_send_db_trace.
Qed.

Lemma tick_db_published :
  published (fst (tick_db db true now senv))
  = collect (fun i r =>
               if transport_ok (senv i)
               then [Buffer_from (stringify_payload (url r) (chatId r))]
               else [])
            0 (due_rows now db).
Proof.
  rewrite tick_db_unfold. cbn [fst].
  change (published (DbFindAll true :: ?t)) with (published t).
  apply (for_of_collect published (tick_db_body senv)).
  - intros; apply flat_map_app.
  - reflexivity.
  - intros i x. apply try_send_db_trace.
  - intros i x. apply try_send_db_trace.
Qed.

Lemma tick_db_errors :
  errors_logged (fst (tick_db db true now senv))
  = collect (fun i (_ : ScheduledReport) =>
               if send_ok (senv i) then [] else [LibraryError])
            0 (due_rows now db).
Proof.
  rewrite tick_db_unfold. cbn [fst].
  change (errors_logged (DbFindAll true :: ?t)) with (errors_logged t).
  apply (for_of_collect errors_logged (tick_db_body senv)).
  - intros; apply flat_map_app.
  - reflexivity.
  - intros i x. apply try_send_db_trace.
  - intros i x. apply try_send_db_trace.
Qed.

End TickDb.

Section TickMem.

Variables (store : Store) (now : Date) (senv : nat -> SendEnv).

Lemma tick_mem_body_returns i p :
  returns (tick_mem_body now senv i p) = true.
Proof.
  unfold tick_mem_body.
  destruct (due now p); [apply try_send_mem_trace|reflexivity].
Qed.

Lemma tick_mem_returns : returns (tick_mem store now senv) = true.
Proof.
  rewrite tick_mem_unfold. apply (for_of_returns (tick_mem_body now senv)).
  apply tick_mem_body_returns.
Qed.

Lemma tick_mem_calls :
  calls_sendToQueue (fst (tick_mem store now senv))
  = map (fun p => (entry_url (snd p), fst p)) (due_entries now store).
Proof.
  rewrite tick_mem_unfold.
  rewrite (for_of_collect calls_sendToQueue (tick_mem_body now senv)
             (fun _ p => if due now p then [(entry_url (snd p), fst p)]
                         else [])).
  - apply collect_filter_map.
  - intros; apply flat_map_app.
  - reflexivity.
  - apply tick_mem_body_returns.
  - intros i p. unfold tick_mem_body. destruct (due now p); [|reflexivity].
    apply try_send_mem_trace.
Qed.

Lemma tick_mem_published :
  published (fst (tick_mem store now senv))
  = collect (fun i p =>
               if due now p && transport_ok (senv i)
               then [Buffer_from
                       (stringify_payload (entry_url (snd p)) (fst p))]
               else [])
            0 store.
Proof.
  rewrite tick_mem_unfold.
  apply (for_of_collect published (tick_mem_body now senv)).
  - intros; apply flat_map_app.
  - reflexivity.
  - apply tick_mem_body_returns.
  - intros i p. unfold tick_mem_body. destruct (due now p); [|reflexivity].
    apply try_send_mem_trace.
Qed.

Lemma tick_mem_errors :
  errors_logged (fst (tick_mem store now senv))
  = collect (fun i p =>
               if due now p && negb (send_ok (senv i)) then [LibraryError]
               else [])
            0 store.
Proof.
  rewrite tick_mem_unfold.
  apply (for_of_collect errors_logged (tick_mem_body now senv)).
  - intros; apply flat_map_app.
  - reflexivity.
  - apply tick_mem_body_returns.
  - intros i p. unfold tick_mem_body. destruct (due now p); [|reflexivity].
    cbn [andb].
    destruct (try_send_mem_trace (senv i) (entry_url (snd p)) (fst p))
      as (_ & _ & _ & E).
    rewrite E. destruct (send_ok (senv i)); reflexivity.
Qed.

End TickMem.

Section TickIndex.

Variables (store : Store) (now : Date) (wenv : nat -> Worker.Env).

Lemma index_body_returns i p :
  returns (index_tick_body now wenv i p) = true.
Proof.
  unfold index_tick_body, returns. destruct (due now p); [|reflexivity].
  rewrite attempt_returns. reflexivity.
Qed.

Lemma index_tick_returns : returns (Index.tick store now wenv) = true.
Proof.
  rewrite index_tick_unfold.
  apply (for_of_returns (index_tick_body now wenv)).
  apply index_body_returns.
Qed.

Lemma index_tick_analyses :
  analyses (fst (Index.tick store now wenv))
  = map (fun p => Some (JString (entry_url (snd p)))) (due_entries now store).
Proof.
  rewrite index_tick_unfold.
  rewrite (for_of_collect analyses (index_tick_body now wenv)
             (fun _ p => if due now p
                         then [Some (JString (entry_url (snd p)))]
                         else [])).
  - apply collect_filter_map.
  - intros; apply flat_map_app.
  - reflexivity.
  - apply index_body_returns.
  - intros i p. unfold index_tick_body.
    destruct (due now p); [|reflexivity].
    apply attempt_analyses.
Qed.

End TickIndex.

(** On whole hours and minutes [===] is equality of integers. *)
Lemma matches_integers now h m :
  matches now (of_Z h) (of_Z m)
  = (h =? getHours now) && (m =? getMinutes now).
Proof.
  unfold matches, strict_eq, of_Z, Qeq_bool, inject_Z. cbn [Qnum Qden].
  rewrite !Z.mul_1_r.
  destruct (Z.eqb_spec h (getHours now)), (Z.eqb_spec m (getMinutes now));
    cbn; rewrite ?Z.eqb_refl; try reflexivity.
Qed.

(** C2: at a tick that reads hour [H] and minute [M] from the clock, the
    dispatches are exactly those of the stored schedules whose hour is
    [H] and whose minute is [M], one for each, with its URL and its chat
    identifier, in the order of the store: [sendToQueue] is called once
    per such schedule and for no other, and each call whose transport
    works publishes the payload of its schedule.  This holds of the tick
    over the table (the table being readable), of the tick over
    [scheduledReports], and of the tick of [index.ts], which starts the
    analysis itself instead of enqueueing.  In particular a store of one
    schedule gives one dispatch when hour and minute are equal to those
    of the clock, and none otherwise. *)
Theorem matcher_dispatches_exactly_the_due db store now senv wenv :
  calls_sendToQueue (fst (tick_db db true now senv))
  = map (fun r => (url r, chatId r)) (due_rows now db)
  /\ published (fst (tick_db db true now senv))
     = collect (fun i r =>
                  if transport_ok (senv i)
                  then [Buffer_from (stringify_payload (url r) (chatId r))]
                  else [])
               0 (due_rows now db)
  /\ calls_sendToQueue (fst (tick_mem store now senv))
     = map (fun p => (entry_url (snd p), fst p)) (due_entries now store)
  /\ published (fst (tick_mem store now senv))
     = collect (fun i p =>
                  if due now p && transport_ok (senv i)
                  then [Buffer_from
                          (stringify_payload (entry_url (snd p)) (fst p))]
                  else [])
               0 store
  /\ analyses (fst (Index.tick store now wenv))
     = map (fun p => Some (JString (entry_url (snd p))))
           (due_entries now store)
  /\ (forall r,
        calls_sendToQueue (fst (tick_db [r] true now senv))
        = if matches now (hour r) (minute r) then [(url r, chatId r)]
          else [])
  /\ (forall k e,
        calls_sendToQueue (fst (tick_mem [(k, e)] now senv))
        = if matches now (entry_hour e) (entry_minute e)
          then [(entry_url e, k)]
          else [])
  /\ forall h m,
       matches now (of_Z h) (of_Z m)
       = (h =? getHours now) && (m =? getMinutes now).
Proof.
  split; [apply tick_db_calls|].
  split; [apply tick_db_published|].
  split; [apply tick_mem_calls|].
  split; [apply tick_mem_published|].
  split; [apply index_tick_analyses|].
  split.
  { intros r. rewrite tick_db_calls. unfold due_rows. cbn [filter].
    destruct (matches now (hour r) (minute r)); reflexivity. }
  split.
  { intros k e. rewrite tick_mem_calls. unfold due_entries, due.
    cbn [filter snd fst].
    destruct (matches now (entry_hour e) (entry_minute e)); reflexivity. }
  intros h m. apply matches_integers.
Qed.

(** The example of the specification: a schedule for 09:30 gives one
    dispatch at 09:30 and none at 09:31. *)
Example dispatch_at_half_past_nine :
  calls_sendToQueue
    (fst (tick_db [row_0930] true half_past_nine (fun _ => send_env_ok)))
  = [(example_url, 42)]
  /\ calls_sendToQueue
       (fst (tick_db [row_0930] true nine_thirty_one (fun _ => send_env_ok)))
     = [].
Proof. split; vm_compute; reflexivity. Qed.

(** C8: whatever the AMQP calls answer, for instance when some or all of
    the enqueues of a tick fail, the tick runs to its end without
    throwing, [sendToQueue] is still called for every schedule that is
    due, and each failed enqueue leaves one error in the log.  Likewise
    the tick of [index.ts] starts the analysis of every schedule that is
    due whatever happens to the others. *)
Theorem enqueue_failures_isolated db store now senv wenv :
  returns (tick_db db true now senv) = true
  /\ calls_sendToQueue (fst (tick_db db true now senv))
     = map (fun r => (url r, chatId r)) (due_rows now db)
  /\ errors_logged (fst (tick_db db true now senv))
     = collect (fun i (_ : ScheduledReport) =>
                  if send_ok (senv i) then [] else [LibraryError])
               0 (due_rows now db)
  /\ returns (tick_mem store now senv) = true
  /\ calls_sendToQueue (fst (tick_mem store now senv))
     = map (fun p => (entry_url (snd p), fst p)) (due_entries now store)
  /\ errors_logged (fst (tick_mem store now senv))
     = collect (fun i p =>
                  if due now p && negb (send_ok (senv i)) then [LibraryError]
                  else [])
               0 store
  /\ returns (Index.tick store now wenv) = true
  /\ analyses (fst (Index.tick store now wenv))
     = map (fun p => Some (JString (entry_url (snd p))))
           (due_entries now store).
Proof.
  split; [apply tick_db_returns|].
  split; [apply tick_db_calls|].
  split; [apply tick_db_errors|].
  split; [apply tick_mem_returns|].
  split; [apply tick_mem_calls|].
  split; [apply tick_mem_errors|].
  split; [apply index_tick_returns|].
  apply index_tick_analyses.
Qed.

(** With the broker unreachable for the first of two schedules that are
    due, the second is still enqueued. *)
Example second_enqueued_after_first_fails :
  let senv := fun i => match i with O => send_env_down | _ => send_env_ok end in
  let t := fst (tick_db [row_0930; row_0930] true half_past_nine senv) in
  calls_sendToQueue t = [(example_url, 42); (example_url, 42)]
  /\ published t = [Buffer_from (stringify_payload example_url 42)]
  /\ errors_logged t = [LibraryError].
Proof. repeat split; vm_compute; reflexivity. Qed.

(* ------------------------------------------------------------------ *)
(** ** The [/schedule] command *)

Lemma schedule_arguments_cases ctx :
  match nth_error (split 32 (text ctx)) 2 with
  | None => schedule_arguments ctx = ([], Thrown TypeError)
  | Some time =>
      schedule_arguments ctx
      = ([], Returned (nth_error (split 32 (text ctx)) 1,
                       nth_error (map Number (split 58 time)) 0,
                       nth_error (map Number (split 58 time)) 1))
  end.
Proof.
  unfold schedule_arguments.
  destruct (nth_error (split 32 (text ctx)) 2); reflexivity.
Qed.

(** C9, as stated, does not hold: [/schedule http://x 25:99] is accepted
    and stored, by the handler over the table and by the handler over
    [scheduledReports], with hour 25 and minute 99. *)
Lemma out_of_range_schedule_stored :
  schedule_db [] true ctx_out_of_range
  = ([DbCreate true; Reply (Scheduled (js "http://x") (of_Z 25) (of_Z 99))],
     Returned [{| id := 1; chatId := 42; url := js "http://x";
                  hour := of_Z 25; minute := of_Z 99 |}])
  /\ schedule_mem [] ctx_out_of_range
     = ([Reply (Scheduled (js "http://x") (of_Z 25) (of_Z 99))],
        Returned [(42, {| entry_url := js "http://x";
                          entry_hour := of_Z 25;
                          entry_minute := of_Z 99 |})])
  /\ in_range (of_Z 25) (of_Z 99) = false.
Proof. repeat split; vm_compute; reflexivity. Qed.

(** C9 (amended): a [/schedule] handler that resolves leaves the store as
    it was or adds one schedule, for the chat of the command, whose URL
    is the second token of the message and is not empty, and whose hour
    and minute are what [Number] reads in the first two pieces of the
    third token and are not [NaN].  No range is checked. *)
Theorem stored_schedule_checked_for_NaN_only db ok store ctx :
  match snd (schedule_db db ok ctx) with
  | Returned db' =>
      db' = db \/
      exists r, db' = db ++ [r] /\ chatId r = chat_id ctx
                /\ checked ctx (url r) (hour r) (minute r)
  | Thrown _ => True
  end
  /\ match snd (schedule_mem store ctx) with
     | Returned store' =>
         store' = store \/
         exists e, store' = set (chat_id ctx) e store
                   /\ checked ctx (entry_url e) (entry_hour e) (entry_minute e)
     | Thrown _ => True
     end.
Proof.
  unfold schedule_db, schedule_mem.
  pose proof (schedule_arguments_cases ctx) as A.
  destruct (nth_error (split 32 (text ctx)) 2) as [time|] eqn:T;
    rewrite A; cbn [bind]; [|split; exact I].
  destruct (rejected _ _ _) eqn:R.
  - split; left; reflexivity.
  - unfold rejected in R.
    apply orb_false_elim in R. destruct R as [R Rm].
    apply orb_false_elim in R. destruct R as [Ru Rh].
    destruct (nth_error (split 32 (text ctx)) 1) as [u|] eqn:U;
      [|discriminate Ru].
    destruct (nth_error (map Number (split 58 time)) 0) as [h|] eqn:H0;
      [|discriminate Rh].
    destruct (nth_error (map Number (split 58 time)) 1) as [m|] eqn:H1;
      [|discriminate Rm].
    assert (C : checked ctx u h m).
    { repeat split; try assumption. exists time. repeat split; assumption. }
    split.
    + destruct ok; cbn; [|exact I]. right. eexists. split; [reflexivity|].
      split; [reflexivity|exact C].
    + cbn. right. eexists. split; [reflexivity|exact C].
Qed.

(** C10, as stated, does not hold: in [/schedule  12:30] (two spaces) the
    time token is present and its hour and minute are the numbers 12 and
    30, and yet the handlers reply with the usage line, because the URL
    token is empty. *)
Lemma usage_reply_with_valid_time :
  schedule_arguments ctx_empty_url
  = ([], Returned (Some [], Some (of_Z 12), Some (of_Z 30)))
  /\ isNaN (Some (of_Z 12)) || isNaN (Some (of_Z 30)) = false
  /\ schedule_db [] true ctx_empty_url = ([Reply Usage], Returned [])
  /\ schedule_mem [] ctx_empty_url = ([Reply Usage], Returned []).
Proof. repeat split; vm_compute; reflexivity. Qed.

(** C10 (amended): on a message of fewer than three space-separated
    tokens the handlers throw a TypeError before anything else happens
    (no reply, nothing stored); on a message of three tokens or more the
    usage line is the reply exactly when the URL token is empty or the
    hour or the minute read from the time token is [NaN]. *)
Theorem usage_reply_reachable db ok store ctx :
  let tokens := split 32 (text ctx) in
  if (List.length tokens <? 3)%nat then
    schedule_db db ok ctx = ([], Thrown TypeError)
    /\ schedule_mem store ctx = ([], Thrown TypeError)
  else
    exists time,
      nth_error tokens 2 = Some time
      /\ replied_usage (fst (schedule_db db ok ctx))
         = falsy (nth_error tokens 1)
           || isNaN (nth_error (map Number (split 58 time)) 0)
           || isNaN (nth_error (map Number (split 58 time)) 1)
      /\ replied_usage (fst (schedule_mem store ctx))
         = falsy (nth_error tokens 1)
           || isNaN (nth_error (map Number (split 58 time)) 0)
           || isNaN (nth_error (map Number (split 58 time)) 1).
Proof.
  cbv zeta. unfold schedule_db, schedule_mem.
  pose proof (schedule_arguments_cases ctx) as A.
  destruct (Nat.ltb_spec (List.length (split 32 (text ctx))) 3) as [L|L].
  - assert (N : nth_error (split 32 (text ctx)) 2 = None)
      by (apply nth_error_None; lia).
    rewrite N in A. rewrite A. split; reflexivity.
  - destruct (nth_error (split 32 (text ctx)) 2) as [time|] eqn:T.
    + exists time. split; [reflexivity|]. rewrite A. cbn [bind].
      fold (rejected (nth_error (split 32 (text ctx)) 1)
                     (nth_error (map Number (split 58 time)) 0)
                     (nth_error (map Number (split 58 time)) 1)).
      destruct (rejected _ _ _) eqn:R; [split; reflexivity|].
      destruct (nth_error (split 32 (text ctx)) 1),
               (nth_error (map Number (split 58 time)) 0),
               (nth_error (map Number (split 58 time)) 1);
        try (split; reflexivity).
      destruct ok; split; reflexivity.
    + apply nth_error_None in T. lia.
Qed.

(** A command without a time token. *)
Example schedule_without_time_throws :
  schedule_db [] true ctx_no_time = ([], Thrown TypeError)
  /\ schedule_mem [] ctx_no_time = ([], Thrown TypeError).
Proof. split; vm_compute; reflexivity. Qed.

(* ------------------------------------------------------------------ *)
(** ** One entry at a time *)

Lemma snoc_split {A} (l pre post : list A) (a x : A) :
  l ++ [a] = pre ++ x :: post ->
  (post = [] /\ l = pre /\ a = x)
  \/ exists post', post = post' ++ [a] /\ l = pre ++ x :: post'.
Proof.
  intros E. destruct post as [|y post] using rev_ind.
  - left. apply app_inj_tail in E. destruct E as [-> ->]. auto.
  - right. exists post.
    change (pre ++ x :: post ++ [y]) with (pre ++ (x :: post) ++ [y]) in E.
    rewrite app_assoc in E. apply app_inj_tail in E.
    destruct E as [-> ->]. auto.
Qed.

Lemma startWorker_prefetch cenv :
  returns (startWorker cenv) = true ->
  prefetch_of (fst (startWorker cenv)) = 1%nat.
Proof.
  destruct cenv as [[] [] []]; cbn; intros H; try discriminate; reflexivity.
Qed.

Lemma acknowledge_keeps ev u t :
  In t u -> In t (acknowledge ev u) \/ ev = Ack t.
Proof.
  intros H. destruct ev; try (left; exact H).
  match goal with
  | |- context [Ack ?a] =>
      destruct (N.eqb_spec t a) as [->|Hne]; [right; reflexivity|]
  end.
  left. apply filter_In. split; [exact H|].
  apply negb_true_iff, N.eqb_neq. exact Hne.
Qed.

Section Prefetch1.
Variable env : N -> Worker.Env.

Lemma step_preserves s m s' :
  step 1 env s m = Some s' ->
  accounted s /\ sequential (history s) ->
  accounted s' /\ sequential (history s').
Proof.
  intros S [IA IS]. destruct m as [|i]; cbn [step] in S.
  - destruct (ready s) as [|msg q]; [discriminate|].
    destruct (may_deliver 1 s) eqn:M; [|discriminate].
    injection S as <-. cbn [history unacked].
    assert (U : unacked s = []).
    { unfold may_deliver in M. cbn [Nat.eqb orb] in M.
      apply Nat.ltb_lt in M. destruct (unacked s); [reflexivity|].
      cbn in M. lia. }
    split.
    + intros t Ht. apply in_app_or in Ht. destruct Ht as [Ht|Ht].
      * destruct (IA t Ht) as [Hu|[h Hh]].
        -- left. apply in_or_app. left. exact Hu.
        -- right. exists h. apply in_or_app. left. exact Hh.
      * destruct Ht as [Ht|[]]. injection Ht as <-.
        left. apply in_or_app. right. left. reflexivity.
    + intros pre t2 post E t1 H1.
      apply snoc_split in E. destruct E as [(_ & <- & _)|(post' & _ & E)].
      * destruct (IA t1 H1) as [Hu|Hk]; [|exact Hk].
        rewrite U in Hu. destruct Hu.
      * exact (IS pre t2 post' E t1 H1).
  - destruct (advance i (running s)) as [[[tag ev] r]|]; [|discriminate].
    injection S as <-. cbn [history unacked].
    split.
    + intros t Ht. apply in_app_or in Ht. destruct Ht as [Ht|Ht].
      * destruct (IA t Ht) as [Hu|[h Hh]].
        -- destruct (acknowledge_keeps ev _ t Hu) as [K| ->].
           ++ left. exact K.
           ++ right. exists tag. apply in_or_app. right. left. reflexivity.
        -- right. exists h. apply in_or_app. left. exact Hh.
      * destruct Ht as [Ht|[]]. discriminate Ht.
    + intros pre t2 post E t1 H1.
      apply snoc_split in E. destruct E as [(_ & _ & E)|(post' & _ & E)].
      * discriminate E.
      * exact (IS pre t2 post' E t1 H1).
Qed.

Lemma run_preserves ms : forall s s',
  run 1 env s ms = Some s' ->
  accounted s /\ sequential (history s) ->
  accounted s' /\ sequential (history s').
Proof.
  induction ms as [|m ms IH]; intros s s' R I; cbn [run] in R.
  - injection R as <-. exact I.
  - destruct (step 1 env s m) as [s1|] eqn:S; [|discriminate].
    apply (IH s1 s' R). exact (step_preserves s m s1 S I).
Qed.

End Prefetch1.

Lemma initial_invariant queue :
  accounted (initial queue) /\ sequential (history (initial queue)).
Proof.
  split.
  - intros t [].
  - intros pre t2 post E. cbn in E. destruct pre; discriminate E.
Qed.

(** C4: once [startWorker] has set up its channel (prefetch count 1),
    in every execution of the broker and the consumer, whatever the
    queue holds and however the calls interleave, the callback is not
    invoked for an entry while an entry delivered earlier has not been
    acknowledged.  (The program never requeues.) *)
Theorem single_concurrency cenv env queue ms s :
  returns (startWorker cenv) = true ->
  run (prefetch_of (fst (startWorker cenv))) env (initial queue) ms = Some s ->
  sequential (history s).
Proof.
  intros W R. rewrite (startWorker_prefetch cenv W) in R.
  exact (proj2 (run_preserves env ms _ _ R (initial_invariant queue))).
Qed.

(** Two entries: the second callback starts after the first entry is
    acknowledged. *)
Lemma single_concurrency_witness :
  exists k, In (Did k (Ack 1%N)) history_two.
Proof.
  refine (single_concurrency conn_ok (fun _ => env_analysis_fails)
            [example_message; example_message_2] schedule_two
            {| ready := [];
               unacked := [2%N];
               running :=
                 [(1%N, []);
                  (2%N, fst (consumeCallback env_analysis_fails
                               (Some example_message_2)))];
               history := history_two ++ [Begin 2] |}
            _ _ history_two 2%N [] _ 1%N _).
  - reflexivity.
  - vm_compute. reflexivity.
  - reflexivity.
  - left. reflexivity.
Defined.

(** Without a prefetch limit the second callback may start at once; with
    [prefetch(1)] the broker refuses the second delivery. *)
Example unlimited_prefetch_overlaps :
  option_map history
    (run 0 (fun _ => env_ok) (initial [example_message; example_message_2])
         [Deliver; Deliver])
  = Some [Begin 1; Begin 2]
  /\ run 1 (fun _ => env_ok) (initial [example_message; example_message_2])
         [Deliver; Deliver] = None.
Proof. split; vm_compute; reflexivity. Qed.

(* ================================================================== *)
(** * Further properties *)

Import Commands Derived.

(* ------------------------------------------------------------------ *)
(** ** [split] *)

Lemma split_nonempty (sep : N) (s : jsstring) : split sep s <> [].
Proof.
  destruct s as [|c r]; cbn [split]; [discriminate|].
  destruct (c =? sep)%N; [discriminate|].
  destruct (split sep r); discriminate.
Qed.

Lemma split_no_sep (sep : N) (s : jsstring) :
  ~ In sep s -> split sep s = [s].
Proof.
  induction s as [|c r IH]; intros H; [reflexivity|].
  cbn [split]. destruct (N.eqb_spec c sep) as [->|Hc].
  - exfalso. apply H. left. reflexivity.
  - rewrite IH; [reflexivity|]. intros Hin. apply H. right. exact Hin.
Qed.

Lemma split_app_sep (sep : N) (a b : jsstring) :
  ~ In sep a -> split sep (a ++ sep :: b) = a :: split sep b.
Proof.
  induction a as [|c r IH]; intros H.
  - cbn [app split]. rewrite N.eqb_refl. reflexivity.
  - cbn [app split]. destruct (N.eqb_spec c sep) as [->|Hc].
    + exfalso. apply H. left. reflexivity.
    + rewrite IH; [reflexivity|]. intros Hin. apply H. right. exact Hin.
Qed.

Lemma split_clean (sep : N) (s : jsstring) :
  Forall (fun p => ~ In sep p) (split sep s).
Proof.
  induction s as [|c r IH]; [repeat constructor; auto|].
  cbn [split]. destruct (N.eqb_spec c sep) as [->|Hc].
  - constructor; [intros []|exact IH].
  - pose proof (split_nonempty sep r) as NE.
    destruct (split sep r) as [|p ps]; [contradiction|].
    apply Forall_cons_iff in IH. destruct IH as [Hp Hps].
    constructor; [|exact Hps]. intros [H|H]; [congruence|auto].
Qed.

(** X1: the pieces [split] gives contain no separator, there is one
    more piece than there are separators, and joining the pieces with the
    separator gives the string back: the tokens of a command lose nothing
    of its text. *)
Theorem split_pieces (sep : N) (s : jsstring) :
  Forall (fun p => ~ In sep p) (split sep s)
  /\ List.length (split sep s) = S (count_occ N.eq_dec s sep)
  /\ join sep (split sep s) = s.
Proof.
  split; [apply split_clean|].
  induction s as [|c r (IH2 & IH3)]; [split; reflexivity|].
  cbn [split count_occ].
  pose proof (split_nonempty sep r) as NE.
  destruct (N.eqb_spec c sep) as [->|Hc].
  - destruct (N.eq_dec sep sep) as [_|N]; [|contradiction].
    split; [cbn [List.length]; rewrite IH2; reflexivity|].
    destruct (split sep r) as [|p ps]; [contradiction|].
    cbn [join app]. cbn [join] in IH3. rewrite IH3. reflexivity.
  - destruct (N.eq_dec c sep) as [N|_]; [contradiction|].
    destruct (split sep r) as [|p ps]; [contradiction|].
    split; [exact IH2|].
    destruct ps as [|q qs]; cbn [join app] in *; rewrite IH3; reflexivity.
Qed.

(* ------------------------------------------------------------------ *)
(** ** [Number] on decimal digits *)

Lemma is_digit_range (c : N) :
  is_digit c = true -> (48 <= c <= 57)%N.
Proof.
  unfold is_digit. intros H. apply andb_prop in H. destruct H as [H1 H2].
  apply N.leb_le in H1, H2. lia.
Qed.

Lemma is_digit_not_whitespace (c : N) :
  is_digit c = true -> is_whitespace c = false.
Proof.
  intros H. apply is_digit_range in H.
  unfold is_whitespace. cbn [existsb].
  repeat (case_cmp; try lia; cbn [orb andb]); reflexivity.
Qed.

Lemma trim_start_digits (s : jsstring) :
  Forall (fun d => is_digit d = true) s -> trim_start s = s.
Proof.
  intros H. destruct H as [|c r Hc _]; [reflexivity|].
  cbn [trim_start]. rewrite (is_digit_not_whitespace c Hc). reflexivity.
Qed.

Lemma trim_digits (s : jsstring) :
  Forall (fun d => is_digit d = true) s -> trim s = s.
Proof.
  intros H. unfold trim. rewrite (trim_start_digits s H).
  rewrite trim_start_digits by (apply Forall_rev; exact H).
  apply rev_involutive.
Qed.

Lemma span_digits_all (ds : list N) :
  Forall (fun d => is_digit d = true) ds -> span_digits ds = (ds, []).
Proof.
  induction 1 as [|d ds Hd _ IH]; [reflexivity|].
  cbn [span_digits]. rewrite Hd, IH. reflexivity.
Qed.

Lemma non_decimal_digits (d : N) (l : list N) :
  Forall (fun c => is_digit c = true) (d :: l) -> non_decimal (d :: l) = None.
Proof.
  intros H. apply Forall_cons_iff in H. destruct H as [Hd Hl].
  destruct (N.eq_dec d 48) as [->|Hne].
  - destruct l as [|p [|q l']]; try reflexivity.
    apply Forall_cons_iff in Hl. destruct Hl as [Hp _].
    apply is_digit_range in Hp. unfold non_decimal.
    repeat (case_cmp; try lia; cbn [orb]). reflexivity.
  - apply is_digit_range in Hd. unfold non_decimal.
    destruct d as [|p]; [reflexivity|].
    do 6 (destruct p as [p|p|]; try reflexivity). contradiction.
Qed.

Lemma take_sign_digit (d : N) (l : list N) :
  is_digit d = true -> take_sign (d :: l) = (false, d :: l).
Proof.
  intros Hd. apply is_digit_range in Hd. unfold take_sign.
  destruct d as [|p]; [reflexivity|].
  do 6 (destruct p as [p|p|]; try reflexivity); lia.
Qed.

Lemma digits_val_bounds (ds : list N) :
  Forall (fun d => is_digit d = true) ds -> 0 <= digits_val ds.
Proof.
  unfold digits_val. intros H.
  assert (G : forall acc, 0 <= acc ->
              0 <= fold_left (fun a d => a * 10 + digit_val d) ds acc).
  { induction H as [|d ds Hd _ IH]; intros acc Ha; [exact Ha|].
    cbn [fold_left]. apply IH. apply is_digit_range in Hd.
    unfold digit_val. lia. }
  apply G. lia.
Qed.

(** [Number] reads a string of decimal digits, with or without leading
    zeros, as the double nearest to its value. *)
Lemma Number_digits_value (ds : list N) :
  ds <> [] -> Forall (fun d => is_digit d = true) ds ->
  Number ds = Number_value (inject_Z (digits_val ds)).
Proof.
  intros NE H. unfold Number. rewrite (trim_digits ds H).
  destruct ds as [|d l]; [contradiction|].
  rewrite (non_decimal_digits d l H).
  pose proof H as H'. apply Forall_cons_iff in H'. destruct H' as [Hd _].
  unfold str_decimal. rewrite (take_sign_digit d l Hd).
  assert (I : jsstring_eqb (d :: l) (js "Infinity") = false).
  { unfold jsstring_eqb. destruct (list_eq_dec N.eq_dec _ _) as [E|_];
      [|reflexivity].
    injection E as -> _. discriminate Hd. }
  rewrite I. unfold unsigned_decimal. rewrite (span_digits_all _ H).
  rewrite app_nil_r. cbn [take_exponent List.length Z.of_nat Z.sub].
  unfold scale10. cbn [Z.leb Z.compare Z.opp Z.add Z.pow Z.pow_pos Pos.iter].
  rewrite Z.mul_1_r. reflexivity.
Qed.

(** Below [2^53] that is the value itself. *)
Lemma Number_digits (ds : list N) :
  ds <> [] -> Forall (fun d => is_digit d = true) ds ->
  digits_val ds < 2 ^ 53 ->
  Number ds = of_Z (digits_val ds).
Proof.
  intros NE H B. rewrite (Number_digits_value ds NE H).
  apply Number_value_safe. unfold isSafeInteger.
  pose proof (digits_val_bounds ds H) as P.
  apply andb_true_intro. split; [apply Z.ltb_lt; lia|apply Z.ltb_lt; exact B].
Qed.

(* ------------------------------------------------------------------ *)
(** ** A well-formed [/schedule] command *)

Lemma digits_without (c : N) (ds : list N) :
  is_digit c = false -> Forall (fun d => is_digit d = true) ds -> ~ In c ds.
Proof.
  intros Hc H Hin. rewrite Forall_forall in H. apply H in Hin. congruence.
Qed.

Lemma schedule_tokens (cmd u hh mm : jsstring) :
  ~ In 32%N cmd -> ~ In 32%N u ->
  Forall (fun d => is_digit d = true) hh ->
  Forall (fun d => is_digit d = true) mm ->
  split 32 (cmd ++ 32%N :: u ++ 32%N :: hh ++ 58%N :: mm)
  = [cmd; u; hh ++ 58%N :: mm]
  /\ split 58 (hh ++ 58%N :: mm) = [hh; mm].
Proof.
  intros Hc Hu Hh Hm. split.
  - rewrite (split_app_sep 32 cmd) by exact Hc.
    rewrite (split_app_sep 32 u) by exact Hu.
    rewrite split_no_sep; [reflexivity|].
    intros Hin. apply in_app_or in Hin. destruct Hin as [Hin|[Hin|Hin]].
    + exact (digits_without 32 hh eq_refl Hh Hin).
    + discriminate Hin.
    + exact (digits_without 32 mm eq_refl Hm Hin).
  - rewrite (split_app_sep 58 hh) by (apply digits_without; auto).
    rewrite split_no_sep by (apply digits_without; auto). reflexivity.
Qed.

(** What the handlers read in a well-formed command. *)
Lemma schedule_arguments_well_formed cmd u hh mm chat :
  ~ In 32%N cmd -> ~ In 32%N u ->
  hh <> [] -> Forall (fun d => is_digit d = true) hh ->
  mm <> [] -> Forall (fun d => is_digit d = true) mm ->
  digits_val hh < 2 ^ 53 -> digits_val mm < 2 ^ 53 ->
  schedule_arguments
    {| text := cmd ++ 32%N :: u ++ 32%N :: hh ++ 58%N :: mm;
       chat_id := chat |}
  = ([], Returned (Some u, Some (of_Z (digits_val hh)),
                   Some (of_Z (digits_val mm)))).
Proof.
  intros Hc Hu Hne Hh Mne Hm Bh Bm.
  destruct (schedule_tokens cmd u hh mm Hc Hu Hh Hm) as [T1 T2].
  unfold schedule_arguments. cbn [text].
  rewrite T1. cbn [nth_error]. rewrite T2. cbn [map nth_error ret].
  rewrite (Number_digits hh Hne Hh Bh), (Number_digits mm Mne Hm Bm).
  reflexivity.
Qed.



(* ------------------------------------------------------------------ *)
(** ** The object [scheduledReports] *)

Lemma set_In (k : Z) (e : Entry) (s : Store) : In (k, e) (set k e s).
Proof.
  induction s as [|[k' e'] r IH]; cbn [set]; [left; reflexivity|].
  destruct (k' =? k); [left; reflexivity|].
  destruct (is_array_index k && (negb (is_array_index k') || (k <? k')));
    [left; reflexivity|right; exact IH].
Qed.

Lemma keys_set (k : Z) (e : Entry) (s : Store) (x : Z) :
  In x (keys (set k e s)) <-> x = k \/ In x (keys s).
Proof.
  unfold keys. induction s as [|[k' e'] r IH]; cbn [set map In fst].
  - intuition.
  - destruct (Z.eqb_spec k' k) as [->|Hne]; cbn [map In fst].
    + intuition.
    + destruct (is_array_index k && (negb (is_array_index k') || (k <? k')));
        cbn [map In fst]; [intuition|].
      rewrite IH. intuition.
Qed.

Lemma set_lookup (k k' : Z) (e : Entry) (s : Store) :
  lookup k (set k e s) = Some e
  /\ (k' <> k -> lookup k' (set k e s) = lookup k' s).
Proof.
  unfold lookup. split.
  - induction s as [|[k0 e0] r IH]; cbn [set find fst snd].
    + rewrite Z.eqb_refl. reflexivity.
    + destruct (Z.eqb_spec k0 k) as [->|Hne]; cbn [find fst snd].
      * rewrite Z.eqb_refl. reflexivity.
      * destruct (is_array_index k && (negb (is_array_index k0) || (k <? k0)));
          cbn [find fst snd].
        -- rewrite Z.eqb_refl. reflexivity.
        -- destruct (Z.eqb_spec k0 k); [contradiction|]. exact IH.
  - intros Hk. induction s as [|[k0 e0] r IH]; cbn [set find fst snd].
    + destruct (Z.eqb_spec k k'); [congruence|]. reflexivity.
    + destruct (Z.eqb_spec k0 k) as [->|Hne]; cbn [find fst snd].
      * destruct (Z.eqb_spec k k'); [congruence|]. reflexivity.
      * destruct (is_array_index k && (negb (is_array_index k0) || (k <? k0)));
          cbn [find fst snd].
        -- destruct (Z.eqb_spec k k'); [congruence|]. reflexivity.
        -- destruct (k0 =? k'); [reflexivity|]. exact IH.
Qed.

Lemma before_trans (a b c : Z) : before a b -> before b c -> before a c.
Proof.
  unfold before.
  destruct (is_array_index a), (is_array_index b), (is_array_index c);
    intuition (try discriminate; try lia).
Qed.

Lemma set_tidy (k : Z) (e : Entry) (s : Store) :
  tidy s -> tidy (set k e s).
Proof.
  unfold tidy, keys. induction s as [|[k' e'] r IH]; intros [S D].
  - cbn. split; repeat constructor; auto.
  - cbn [set map fst] in *.
    apply StronglySorted_inv in S. destruct S as [S F].
    apply NoDup_cons_iff in D. destruct D as [N D].
    destruct (Z.eqb_spec k' k) as [->|Hne]; cbn [map fst].
    + split; [constructor|constructor]; assumption.
    + destruct (is_array_index k && (negb (is_array_index k') || (k <? k')))
        eqn:C; cbn [map fst].
      * apply andb_prop in C. destruct C as [Ck C].
        assert (B : before k k').
        { unfold before. rewrite Ck. apply orb_prop in C.
          destruct C as [C|C]; [left; apply negb_true_iff, C|right; lia]. }
        assert (Fk : Forall (before k) (map fst r)).
        { eapply Forall_impl; [|exact F]. intros x. apply before_trans, B. }
        split.
        -- constructor; [constructor; assumption|].
           constructor; assumption.
        -- constructor; [|constructor; assumption].
           intros [H|H]; [congruence|].
           rewrite Forall_forall in Fk. specialize (Fk k H).
           unfold before in Fk. rewrite Ck in Fk. destruct Fk; [congruence|lia].
      * destruct (IH (conj S D)) as [S' D'].
        assert (B : before k' k).
        { unfold before. unfold is_array_index in *.
          destruct ((0 <=? k) && (k <? 2 ^ 32 - 1)) eqn:Ik;
          destruct ((0 <=? k') && (k' <? 2 ^ 32 - 1)) eqn:Ik';
            cbn [andb negb orb] in C; auto;
            try discriminate C.
          right. apply Z.ltb_ge in C. lia. }
        split.
        -- constructor; [exact S'|].
           apply Forall_forall. intros x Hx.
           apply (keys_set k e r x) in Hx. destruct Hx as [->|Hx]; [exact B|].
           rewrite Forall_forall in F. exact (F x Hx).
        -- constructor; [|exact D'].
           intros Hx. apply (keys_set k e r k') in Hx.
           destruct Hx as [Hx|Hx]; [congruence|contradiction].
Qed.

Lemma schedule_mem_cases (store : Store) (ctx : Context) :
  match snd (schedule_mem store ctx) with
  | Returned s' => s' = store \/ exists e, s' = set (chat_id ctx) e store
  | Thrown _ => True
  end.
Proof.
  unfold schedule_mem, schedule_arguments.
  destruct (nth_error (split 32 (text ctx)) 2) as [time|]; [|exact I].
  generalize (nth_error (split 32 (text ctx)) 1)
             (nth_error (map Number (split 58 time)) 0)
             (nth_error (map Number (split 58 time)) 1).
  intros a b c. cbn [bind ret app].
  destruct (rejected a b c); [left; reflexivity|].
  destruct a, b, c; try (left; reflexivity).
  right. eexists. reflexivity.
Qed.

Lemma schedule_all_tidy (ctxs : list Context) : tidy (schedule_all ctxs).
Proof.
  unfold schedule_all.
  assert (G : forall s, tidy s ->
            tidy (fold_left (fun s ctx =>
                               match snd (schedule_mem s ctx) with
                               | Returned s' => s'
                               | Thrown _ => s
                               end) ctxs s)).
  { induction ctxs as [|ctx r IH]; intros s T; [exact T|].
    cbn [fold_left]. apply IH.
    pose proof (schedule_mem_cases s ctx) as C.
    destruct (snd (schedule_mem s ctx)) as [s'|]; [|exact T].
    destruct C as [->|[e ->]]; [exact T|]. apply set_tidy, T. }
  apply G. split; constructor.
Qed.

Lemma NoDup_filter_keys (f : Z * Entry -> bool) (s : Store) :
  NoDup (map fst s) -> NoDup (map fst (filter f s)).
Proof.
  induction s as [|p r IH]; intros D; [constructor|].
  cbn [map] in D. apply NoDup_cons_iff in D. destruct D as [N D].
  cbn [filter]. destruct (f p); [|apply IH, D].
  cbn [map]. constructor; [|apply IH, D].
  intros H. apply N. apply in_map_iff in H. destruct H as (q & E & Hq).
  apply filter_In in Hq. apply in_map_iff. exists q. tauto.
Qed.

(** X4: whatever [/schedule] commands have been received, the object
    holds at most one schedule per chat, its properties are in the order
    of [for ... in], and a tick enqueues at most one request per chat. *)
Theorem one_schedule_per_chat ctxs now senv :
  NoDup (keys (schedule_all ctxs))
  /\ StronglySorted before (keys (schedule_all ctxs))
  /\ NoDup (map snd (calls_sendToQueue
                       (fst (tick_mem (schedule_all ctxs) now senv)))).
Proof.
  destruct (schedule_all_tidy ctxs) as [S D].
  split; [exact D|]. split; [exact S|].
  rewrite tick_mem_calls, map_map. cbn [snd].
  apply NoDup_filter_keys. exact D.
Qed.

(** X5: a well-formed command (hour and minute digits of values below
    [2^53], which a number holds exactly) replaces the schedule of its
    chat, if it had one, and leaves those of the other chats. *)
Theorem reschedule_replaces cmd u hh mm chat store :
  ~ In 32%N cmd -> ~ In 32%N u -> u <> [] ->
  hh <> [] -> Forall (fun d => is_digit d = true) hh ->
  mm <> [] -> Forall (fun d => is_digit d = true) mm ->
  digits_val hh < 2 ^ 53 -> digits_val mm < 2 ^ 53 ->
  let ctx := {| text := cmd ++ 32%N :: u ++ 32%N :: hh ++ 58%N :: mm;
                chat_id := chat |} in
  exists store',
    snd (schedule_mem store ctx) = Returned store'
    /\ lookup chat store'
       = Some {| entry_url := u; entry_hour := of_Z (digits_val hh);
                 entry_minute := of_Z (digits_val mm) |}
    /\ forall k, k <> chat -> lookup k store' = lookup k store.
Proof.
  intros Hc Hu Une Hne Hh Mne Hm Bh Bm. cbv zeta.
  unfold schedule_mem.
  rewrite (schedule_arguments_well_formed cmd u hh mm chat Hc Hu Hne Hh
             Mne Hm Bh Bm).
  cbn [bind app chat_id]. unfold rejected.
  destruct u as [|c u']; [contradiction|].
  cbn [falsy isNaN of_Z orb snd]. eexists. split; [reflexivity|].
  split; [apply (set_lookup chat chat)|].
  intros k Hk. apply set_lookup, Hk.
Qed.

(** Chat 42 moves its schedule from 09:30 to 10:15. *)
Lemma reschedule_replaces_witness :
  exists store',
    snd (schedule_mem [(42, {| entry_url := example_url;
                               entry_hour := of_Z 9;
                               entry_minute := of_Z 30 |})]
           {| text := js "/schedule https://example.com 10:15";
              chat_id := 42 |})
    = Returned store'
    /\ lookup 42 store'
       = Some {| entry_url := example_url; entry_hour := of_Z 10;
                 entry_minute := of_Z 15 |}
    /\ forall k, k <> 42 ->
                 lookup k store'
                 = lookup k [(42, {| entry_url := example_url;
                                     entry_hour := of_Z 9;
                                     entry_minute := of_Z 30 |})].
Proof.
  refine (reschedule_replaces (js "/schedule") example_url
            (js "10") (js "15") 42 _ _ _ _ _ _ _ _ _ _).
  - vm_compute. intuition discriminate.
  - vm_compute. intuition discriminate.
  - discriminate.
  - discriminate.
  - repeat constructor.
  - discriminate.
  - repeat constructor.
  - reflexivity.
  - reflexivity.
Defined.

(** X3: whatever the text of a [/schedule] command, the URL of a
    schedule it stores is not empty and contains no space. *)
Theorem stored_url_is_a_token db ok store ctx :
  match snd (schedule_db db ok ctx) with
  | Returned db' =>
      db' = db \/
      exists r, db' = db ++ [r] /\ url r <> [] /\ ~ In 32%N (url r)
  | Thrown _ => True
  end
  /\ match snd (schedule_mem store ctx) with
     | Returned store' =>
         store' = store \/
         exists e, store' = set (chat_id ctx) e store
                   /\ entry_url e <> [] /\ ~ In 32%N (entry_url e)
     | Thrown _ => True
     end.
Proof.
  unfold schedule_db, schedule_mem, schedule_arguments.
  destruct (nth_error (split 32 (text ctx)) 2) as [time|]; [|split; exact I].
  assert (T : forall u, nth_error (split 32 (text ctx)) 1 = Some u ->
                        ~ In 32%N u).
  { intros u H. apply nth_error_In in H.
    pose proof (split_clean 32 (text ctx)) as F.
    rewrite Forall_forall in F. exact (F u H). }
  revert T.
  generalize (nth_error (split 32 (text ctx)) 1)
             (nth_error (map Number (split 58 time)) 0)
             (nth_error (map Number (split 58 time)) 1).
  intros a b c T. cbn [bind ret app].
  destruct (rejected a b c) eqn:R; [split; left; reflexivity|].
  destruct a as [u|], b, c; try (split; left; reflexivity).
  assert (U : u <> []).
  { intros ->. discriminate R. }
  split.
  - destruct ok; cbn; [|exact I]. right. eexists. split; [reflexivity|].
    cbn [url]. split; [exact U|apply T; reflexivity].
  - cbn. right. eexists. split; [reflexivity|].
    cbn [entry_url]. split; [exact U|apply T; reflexivity].
Qed.

(* ------------------------------------------------------------------ *)
(** ** From the command to the queue *)

(** X6: a schedule made by a well-formed command is dispatched by the
    tick that reads its hour and minute from the clock: [sendToQueue] is
    called with its URL and its chat.  (What a clock reads is below
    [2^53], where a number holds the value of the digits exactly.) *)
Theorem scheduled_then_dispatched cmd u hh mm chat db store now senv :
  ~ In 32%N cmd -> ~ In 32%N u -> u <> [] ->
  hh <> [] -> Forall (fun d => is_digit d = true) hh ->
  mm <> [] -> Forall (fun d => is_digit d = true) mm ->
  getHours now = digits_val hh -> getMinutes now = digits_val mm ->
  getHours now < 2 ^ 53 -> getMinutes now < 2 ^ 53 ->
  let ctx := {| text := cmd ++ 32%N :: u ++ 32%N :: hh ++ 58%N :: mm;
                chat_id := chat |} in
  (exists store',
     snd (schedule_mem store ctx) = Returned store'
     /\ In (u, chat) (calls_sendToQueue (fst (tick_mem store' now senv))))
  /\ (exists db',
        snd (schedule_db db true ctx) = Returned db'
        /\ In (u, chat)
              (calls_sendToQueue (fst (tick_db db' true now senv)))).
Proof.
  intros Hc Hu Une Hne Hh Mne Hm NH NM Bh Bm. cbv zeta.
  unfold schedule_mem, schedule_db.
  rewrite NH in Bh. rewrite NM in Bm.
  rewrite (schedule_arguments_well_formed cmd u hh mm chat Hc Hu Hne Hh
             Mne Hm Bh Bm).
  cbn [bind app chat_id]. unfold rejected.
  destruct u as [|c u']; [contradiction|].
  cbn [falsy isNaN of_Z orb snd call emit ret].
  set (u := c :: u') in *.
  assert (M : matches now (of_Z (digits_val hh)) (of_Z (digits_val mm)) = true).
  { rewrite matches_integers, NH, NM, !Z.eqb_refl. reflexivity. }
  split.
  - eexists. split; [reflexivity|]. rewrite tick_mem_calls.
    apply in_map_iff.
    exists (chat, {| entry_url := u; entry_hour := of_Z (digits_val hh);
                     entry_minute := of_Z (digits_val mm) |}).
    split; [reflexivity|].
    apply filter_In. split; [apply set_In|exact M].
  - eexists. split; [reflexivity|]. rewrite tick_db_calls.
    apply in_map_iff.
    exists {| id := Z.of_nat (List.length db) + 1; chatId := chat; url := u;
              hour := of_Z (digits_val hh); minute := of_Z (digits_val mm) |}.
    split; [reflexivity|].
    apply filter_In. split; [|exact M].
    apply in_or_app. right. left. reflexivity.
Qed.

(** A schedule for 09:30 and the tick of 09:30. *)
Lemma scheduled_then_dispatched_witness :
  exists store',
    snd (schedule_mem [] {| text := js "/schedule https://example.com 09:30";
                            chat_id := 42 |})
    = Returned store'
    /\ In (example_url, 42)
          (calls_sendToQueue
             (fst (tick_mem store' half_past_nine (fun _ => send_env_ok)))).
Proof.
  refine (proj1 (scheduled_then_dispatched (js "/schedule") example_url
                   (js "09") (js "30") 42 [] [] half_past_nine
                   (fun _ => send_env_ok) _ _ _ _ _ _ _ _ _ _ _)).
  - vm_compute. intuition discriminate.
  - vm_compute. intuition discriminate.
  - discriminate.
  - discriminate.
  - repeat constructor.
  - discriminate.
  - repeat constructor.
  - reflexivity.
  - reflexivity.
  - reflexivity.
  - reflexivity.
Defined.

(* ------------------------------------------------------------------ *)
(** ** [sendToQueue], [startWorker] *)

(** X7: [sendToQueue] resolves exactly when its five AMQP calls succeed;
    it publishes one message, the payload, once the connection, the
    channel and the queue are there, and nothing otherwise; the channel
    is closed only after the publication, and the connection only when
    the channel has closed: a failure on the way leaves what was opened
    open. *)
Theorem sendToQueue_steps env u c :
  let t := fst (sendToQueue env u c) in
  returns (sendToQueue env u c) = send_ok env
  /\ published t
     = (if transport_ok env then [Buffer_from (stringify_payload u c)]
        else [])
  /\ closes t
     = (if transport_ok env
        then AmqpChannelClose (channel_close env)
             :: (if channel_close env
                 then [AmqpConnectionClose (connection_close env)]
                 else [])
        else []).
Proof.
  unfold send_ok, transport_ok. destruct env as [a b d e f].
  cbn [Producer.connect Producer.create_channel Producer.assert_queue
       channel_close connection_close].
  destruct a, b, d, e, f; repeat split; reflexivity.
Qed.

(** X8: [startWorker] registers its callback exactly when the
    connection, the channel and the queue are there, and then after
    setting the prefetch count to 1; otherwise it rejects without
    consuming. *)
Theorem startWorker_subscribes env :
  let ok := Worker.connect env && Worker.create_channel env
            && Worker.assert_queue env in
  returns (startWorker env) = ok
  /\ (if ok
      then exists pre,
             fst (startWorker env)
             = pre ++ [AmqpPrefetch 1; ConsoleLog; AmqpConsume]
             /\ ~ In AmqpConsume pre
      else ~ In AmqpConsume (fst (startWorker env)))
  /\ prefetch_of (fst (startWorker env)) = (if ok then 1 else 0)%nat.
Proof.
  destruct env as [[] [] []]; cbn; (split; [reflexivity|]);
    (split; [|reflexivity]);
    try (intros H; repeat (destruct H as [H|H]; try discriminate H);
         exact H).
  eexists [_; _; _]. split; [reflexivity|].
  intros H; repeat (destruct H as [H|H]; try discriminate H); exact H.
Qed.

(* ------------------------------------------------------------------ *)
(** ** The [/check] command *)

(** X9: [/check] of the producers.  Without a URL token (or with an
    empty one) it makes no AMQP call and asks for a URL; it returns the
    promise of that reply, so it rejects exactly when that reply fails.
    Otherwise it resolves, whatever fails: it calls [sendToQueue] once,
    with the URL and the chat of the command, and sends one reply, that
    the request is queued exactly when [sendToQueue] resolves; when it
    does not, the error is logged and the reply says so, even if the
    message had been published before the failure.  The handler does not
    wait for these two replies: their outcome does not change its own. *)
Theorem check_queue_outcome env reply_ok ctx :
  let r := check_queue env reply_ok ctx in
  let url := nth_error (split 32 (text ctx)) 1 in
  if falsy url
  then r = ([ReplyCheck PleaseProvideUrl reply_ok],
            if reply_ok then Returned tt else Thrown LibraryError)
  else
    exists u,
      url = Some u
      /\ returns r = true
      /\ calls_sendToQueue (fst r) = [(u, chat_id ctx)]
      /\ published (fst r)
         = (if transport_ok env
            then [Buffer_from (stringify_payload u (chat_id ctx))]
            else [])
      /\ check_replies (fst r)
         = [(if send_ok env then Queued else FailedToQueue, reply_ok)]
      /\ errors_logged (fst r) = (if send_ok env then [] else [LibraryError]).
Proof.
  cbv zeta. unfold check_queue.
  destruct (nth_error (split 32 (text ctx)) 1) as [u|];
    [|destruct reply_ok; reflexivity].
  destruct (falsy (Some u)); [destruct reply_ok; reflexivity|].
  exists u. split; [reflexivity|].
  unfold send_ok, transport_ok. destruct env as [a b d e f].
  cbn [Producer.connect Producer.create_channel Producer.assert_queue
       channel_close connection_close].
  destruct a, b, d, e, f; repeat split; reflexivity.
Qed.

(** X10: [/check] of [index.ts].  Without a URL it does nothing but ask
    for one, and rejects exactly when that reply fails.  Otherwise it
    resolves, whatever fails: it analyses the URL once; the Chrome it
    launched is killed, so that none is left unless the call of [kill]
    itself fails; the report goes to the chat of the command, exactly
    when analysis, rendering, writing and sending succeed; the failure
    reply follows whenever a step fails, also when only the removal of
    the file fails after the report has been sent. *)
Theorem check_inline_outcome env reply_ok ctx :
  let r := check_inline env reply_ok ctx in
  let url := nth_error (split 32 (text ctx)) 1 in
  if falsy url
  then r = ([ReplyCheck PleaseProvideUrl reply_ok],
            if reply_ok then Returned tt else Thrown LibraryError)
  else
    exists u,
      url = Some u
      /\ returns r = true
      /\ analyses (fst r) = [Some (JString u)]
      /\ kills (fst r) = (if chrome_launch env then [chrome_kill env] else [])
      /\ chrome_live 0 (fst r)
         = (if chrome_launch env && negb (chrome_kill env) then 1 else 0)%nat
      /\ delivered (fst r) = analysis_ok env && delivery_ok env
      /\ Forall (eq (Some (JNumber (of_Z (chat_id ctx)))))
                (recipients (fst r))
      /\ check_replies (fst r)
         = (if analysis_ok env && delivery_ok env && unlink env then []
            else [(FailedToCheck, reply_ok)]).
Proof.
  cbv zeta. unfold check_inline.
  destruct (nth_error (split 32 (text ctx)) 1) as [u|];
    [|destruct reply_ok; reflexivity].
  destruct (falsy (Some u)); [destruct reply_ok; reflexivity|].
  exists u. split; [reflexivity|].
  unfold analysis_ok, delivery_ok.
  destruct env as [l lh w k a b c d e f].
  cbn [chrome_launch lighthouse report_write chrome_kill pdf_create
       pdf_draw pdf_save pdf_write send_document unlink].
  destruct l, lh as [[]| |[] s], w, k, a, b, c, d, e, f;
    repeat split; try reflexivity; repeat constructor.
Qed.

(* ------------------------------------------------------------------ *)
(** ** One Chrome at a time *)

Lemma chrome_live_cons (n : nat) (ev : event) (r : trace) :
  chrome_live n (ev :: r) = chrome_live (chrome_next n ev) r.
Proof. destruct ev; try reflexivity; destruct ok; reflexivity. Qed.

Lemma at_most_one_chrome_app (a b : trace) (n : nat) :
  at_most_one_chrome n (a ++ b)
  = at_most_one_chrome n a && at_most_one_chrome (chrome_live n a) b.
Proof.
  revert n. induction a as [|ev a IH]; intros n.
  - cbn [app at_most_one_chrome chrome_live].
    destruct b; cbn [at_most_one_chrome];
      destruct (n <=? 1)%nat; reflexivity.
  - cbn [app at_most_one_chrome]. rewrite IH, chrome_live_cons.
    rewrite andb_assoc. reflexivity.
Qed.

Lemma calm_nil : calm [].
Proof. split; reflexivity. Qed.

Lemma calm_app (a b : trace) : calm a -> calm b -> calm (a ++ b).
Proof.
  intros [A1 A2] [B1 B2]. split.
  - rewrite at_most_one_chrome_app, A1, A2, B1. reflexivity.
  - rewrite chrome_live_app, A2, B2. reflexivity.
Qed.

Lemma calm_checkPageSpeed env url :
  chrome_kill env = true -> calm (fst (checkPageSpeed env url)).
Proof.
  unfold checkPageSpeed. destruct env as [l lh w k ? ? ? ? ? ?].
  cbn [chrome_kill chrome_launch lighthouse report_write]. intros ->.
  by_url url; destruct l, lh as [[]| |[] s], w; split; reflexivity.
Qed.

Lemma calm_deliver env s chatId : calm (fst (deliver env s chatId)).
Proof.
  destruct env as [? ? ? ? a b c d e f].
  destruct a, b, c, d, e, f; split; reflexivity.
Qed.

Lemma calm_attempt env url chatId :
  chrome_kill env = true -> calm (fst (attempt env url chatId)).
Proof.
  intros K. unfold attempt. rewrite fst_try_catch, snd_bind, fst_bind.
  apply calm_app; [apply calm_app|].
  - apply calm_checkPageSpeed, K.
  - destruct (snd (checkPageSpeed env url)); [apply calm_deliver|apply calm_nil].
  - destruct (snd (checkPageSpeed env url)) as [s|e].
    + destruct (snd (deliver env s chatId)); [apply calm_nil|split; reflexivity].
    + split; reflexivity.
Qed.

Lemma calm_for_of {A} (body : nat -> A -> exec unit) :
  (forall i x, calm (fst (body i x))) ->
  forall l i, calm (fst (for_of body i l)).
Proof.
  intros H l. induction l as [|x l IH]; intros i; [apply calm_nil|].
  cbn [for_of]. rewrite fst_bind. apply calm_app; [apply H|].
  destruct (snd (body i x)); [apply IH|apply calm_nil].
Qed.

(** X11: in one run of the tick of [index.ts], however many schedules
    are due and whatever else fails, when every call of [kill] succeeds
    at most one of the Chromes the run launches is alive at any point of
    it and none when it ends: the analyses of one run do not overlap.
    The tick acknowledges nothing (it uses no queue).  (A [/check]
    command or another run of the tick that is under way at the same
    time has a trace of its own.) *)
Theorem index_tick_one_chrome store now wenv :
  (forall i, chrome_kill (wenv i) = true) ->
  at_most_one_chrome 0 (fst (Index.tick store now wenv)) = true
  /\ chrome_live 0 (fst (Index.tick store now wenv)) = 0%nat
  /\ acks (fst (Index.tick store now wenv)) = [].
Proof.
  intros K. rewrite index_tick_unfold.
  destruct (calm_for_of (index_tick_body now wenv)) with (l := store) (i := 0%nat)
    as [C1 C2].
  { intros i p. unfold index_tick_body.
    destruct (due now p); [apply calm_attempt, K|apply calm_nil]. }
  split; [exact C1|]. split; [exact C2|].
  rewrite (for_of_collect acks (index_tick_body now wenv) (fun _ _ => [])).
  - clear C1 C2. generalize 0%nat.
    induction store as [|p r IH]; intros i; [reflexivity|].
    cbn [collect app]. apply IH.
  - intros; apply flat_map_app.
  - reflexivity.
  - apply index_body_returns.
  - intros i p. unfold index_tick_body. destruct (due now p); [|reflexivity].
    apply attempt_trace.
Qed.

(** Two schedules due at 09:30; the audit of each throws. *)
Lemma index_tick_one_chrome_witness :
  let store := [(42, {| entry_url := example_url; entry_hour := of_Z 9;
                        entry_minute := of_Z 30 |});
                (43, {| entry_url := example_url; entry_hour := of_Z 9;
                        entry_minute := of_Z 30 |})] in
  let t := fst (Index.tick store half_past_nine
                  (fun _ => env_analysis_fails)) in
  at_most_one_chrome 0 t = true /\ chrome_live 0 t = 0%nat /\ acks t = [].
Proof.
  cbv zeta. apply (index_tick_one_chrome _ _ (fun _ => env_analysis_fails)).
  intros i. reflexivity.
Defined.

(** The shape of what the callback does. *)
Lemma consumeCallback_shape env m :
  let T := fst (consumeCallback env (Some m)) in
  T = [] \/ exists pre, T = pre ++ [Ack (deliveryTag m)] /\ acks pre = [].
Proof.
  cbv zeta.
  destruct (consumeCallback_cases env m) as [(v & _ & _ & _ & E)|[e E]];
    rewrite E; [|left; reflexivity].
  destruct (attempt_trace env (get (js "url") v) (get (js "chatId") v))
    as (A & _).
  right. eexists (ConsoleLog :: _). split; [reflexivity|exact A].
Qed.

Lemma consumeCallback_calm env m :
  chrome_kill env = true -> calm (fst (consumeCallback env (Some m))).
Proof.
  intros K.
  destruct (consumeCallback_cases env m) as [(v & _ & _ & _ & E)|[e E]];
    rewrite E; [|apply calm_nil].
  change (calm ([ConsoleLog]
                ++ fst (attempt env (get (js "url") v)
                          (get (js "chatId") v))
                ++ [Ack (deliveryTag m)])).
  apply calm_app; [split; reflexivity|].
  apply calm_app; [apply calm_attempt, K|split; reflexivity].
Qed.

(* ------------------------------------------------------------------ *)
(** ** What the worker makes of a payload *)

Lemma payload_processed u c : processed (Buffer_from (stringify_payload u c)).
Proof.
  intros wenv tag. cbv zeta.
  assert (P : JSON.parse
                (Buffer_toString (Buffer_from (stringify_payload u c)))
              = Some (JObject [(js "url", JString u);
                               (js "chatId",
                                JNumber (Number_value (inject_Z c)))])).
  { unfold Buffer_toString, Buffer_from. cbn [utf8].
    rewrite scrub_stringify_payload. apply parse_stringify_payload. }
  split; [eexists; split; [exact P|split; [discriminate|reflexivity]]|].
  rewrite (consumeCallback_parsed wenv
             {| deliveryTag := tag;
                content := Buffer_from (stringify_payload u c) |} _ P)
    by (discriminate || reflexivity).
  split; [reflexivity|]. cbn [fst deliveryTag].
  match goal with
  | |- context [attempt wenv ?a ?b] =>
      destruct (attempt_trace wenv a b) as (A & _)
  end.
  unfold acks in *. cbn [flat_map app]. rewrite flat_map_app, A. reflexivity.
Qed.

Lemma In_collect {A B} (g : nat -> A -> list B) (b : B) (l : list A) :
  forall i, In b (collect g i l) -> exists j x, In x l /\ In b (g j x).
Proof.
  induction l as [|x l IH]; intros i H; [destruct H|].
  cbn [collect] in H. apply in_app_or in H. destruct H as [H|H].
  - exists i, x. split; [left; reflexivity|exact H].
  - destruct (IH _ H) as (j & y & Hy & Hb). exists j, y.
    split; [right; exact Hy|exact Hb].
Qed.

Lemma payloads_processed (l : list Buffer) :
  (forall b, In b l -> exists u c, b = Buffer_from (stringify_payload u c)) ->
  Forall processed l.
Proof.
  intros H. apply Forall_forall. intros b Hb.
  destruct (H b Hb) as (u & c & ->). apply payload_processed.
Qed.

Lemma check_queue_published env reply_ok ctx b :
  In b (published (fst (check_queue env reply_ok ctx))) ->
  exists u c, b = Buffer_from (stringify_payload u c).
Proof.
  unfold check_queue.
  destruct (nth_error (split 32 (text ctx)) 1) as [u|]; [|intros []].
  destruct (falsy (Some u)); [intros []|].
  destruct env as [a b0 d e f].
  destruct a, b0, d, e, f; cbn; intros H;
    repeat (destruct H as [H|H]; try (subst b; eauto)); destruct H.
Qed.

(** X13: every message that [sendToQueue], [/check] or a tick of the
    producers publishes is the payload of some URL and chat identifier;
    the worker parses it, resolves and acknowledges it once, whatever
    the outside world answers. *)
Theorem producers_publish_processable db store now senv reply_ok ctx u c :
  Forall processed (published (fst (sendToQueue (senv 0%nat) u c)))
  /\ Forall processed
       (published (fst (check_queue (senv 0%nat) reply_ok ctx)))
  /\ Forall processed (published (fst (tick_db db true now senv)))
  /\ Forall processed (published (fst (tick_mem store now senv))).
Proof.
  split; [|split; [|split]]; apply payloads_processed; intros b H.
  - destruct (sendToQueue_trace (senv 0%nat) u c) as (_ & P & _).
    rewrite P in H. destruct (transport_ok (senv 0%nat)); [|destruct H].
    destruct H as [<-|[]]. eauto.
  - exact (check_queue_published _ _ _ _ H).
  - rewrite tick_db_published in H. apply In_collect in H.
    destruct H as (j & r & _ & H).
    destruct (transport_ok (senv j)); [|destruct H].
    destruct H as [<-|[]]. eauto.
  - rewrite tick_mem_published in H. apply In_collect in H.
    destruct H as (j & p & _ & H).
    destruct (due now p && transport_ok (senv j)); [|destruct H].
    destruct H as [<-|[]]. eauto.
Qed.

(** X12: of the payload the callback checks nothing; all that stops it
    is the log line, which converts [url] and [chatId] to strings.
    Whatever JSON value other than [null] an entry carries, when the two
    can be converted the analysis is started once with the member [url]
    of that value, undefined if there is none, a report can only go to
    its member [chatId], and the entry is acknowledged once; when one of
    them cannot, the callback throws before the [try], starts no
    analysis and acknowledges nothing. *)
Theorem callback_passes_fields_on env m v :
  JSON.parse (Buffer_toString (content m)) = Some v -> v <> JNull ->
  let t := fst (consumeCallback env (Some m)) in
  if printable v
  then analyses t = [get (js "url") v]
       /\ Forall (eq (get (js "chatId") v)) (recipients t)
       /\ acks t = [deliveryTag m]
  else consumeCallback env (Some m) = ([], Thrown TypeError).
Proof.
  intros P Hv. cbv zeta. destruct (printable v) eqn:Hp;
    [|exact (consumeCallback_unprintable env m v P Hv Hp)].
  rewrite (consumeCallback_parsed env m v P Hv Hp). cbn [fst].
  destruct (attempt_trace env (get (js "url") v) (get (js "chatId") v))
    as (A & _).
  pose proof (attempt_analyses env (get (js "url") v) (get (js "chatId") v))
    as An.
  pose proof (attempt_recipients env (get (js "url") v) (get (js "chatId") v))
    as Re.
  unfold analyses, recipients, acks in *. cbn [flat_map app].
  rewrite !flat_map_app, An, A. cbn [flat_map app].
  split; [reflexivity|]. split; [|reflexivity].
  rewrite app_nil_r. exact Re.
Qed.

(** An entry whose [url] is an object with a member [toString]: the
    callback throws at the log line. *)
Lemma callback_passes_fields_on_witness :
  consumeCallback env_ok (Some unprintable_message) = ([], Thrown TypeError).
Proof.
  exact (callback_passes_fields_on env_ok unprintable_message
           (JObject [(js "url", JObject [(js "toString", JNull)]);
                     (js "chatId", JNumber (of_Z 42))])
           eq_refl ltac:(discriminate)).
Defined.

(* ------------------------------------------------------------------ *)
(** ** The consumer, one entry at a time *)

Lemma events_of_app (a b : list observation) :
  events_of (a ++ b) = events_of a ++ events_of b.
Proof. apply flat_map_app. Qed.

Lemma pending_finished (r : list (N * trace)) :
  Forall finished r -> pending r = [].
Proof.
  unfold pending. induction 1 as [|[t T] r H _ IH]; [reflexivity|].
  cbn in H |- *. unfold finished in H. cbn in H. subst T. exact IH.
Qed.

Lemma pending_app (a b : list (N * trace)) :
  pending (a ++ b) = pending a ++ pending b.
Proof. unfold pending. rewrite map_app, concat_app. reflexivity. Qed.

Lemma unfinished_finished (r : list (N * trace)) :
  Forall finished r -> unfinished r = 0%nat.
Proof.
  unfold unfinished. induction 1 as [|[t T] r H _ IH]; [reflexivity|].
  unfold finished in H. cbn in H. subst T. cbn. exact IH.
Qed.

Lemma unfinished_app (a b : list (N * trace)) :
  unfinished (a ++ b) = (unfinished a + unfinished b)%nat.
Proof. unfold unfinished. rewrite filter_app, length_app. reflexivity. Qed.

Lemma advance_finished (r : list (N * trace)) :
  Forall finished r -> forall i, advance i r = None.
Proof.
  induction 1 as [|[t T] r H _ IH]; intros i; [destruct i; reflexivity|].
  unfold finished in H. cbn in H. subst T.
  destruct i; cbn [advance]; [reflexivity|]. rewrite IH. reflexivity.
Qed.

(** Only the invocation under way can make a step. *)
Lemma advance_active r1 t ev rest r2 i x :
  Forall finished r1 -> Forall finished r2 ->
  advance i (r1 ++ (t, ev :: rest) :: r2) = Some x ->
  x = (t, ev, r1 ++ (t, rest) :: r2).
Proof.
  intros F1 F2. revert i x.
  induction F1 as [|[t0 T0] r1 H _ IH]; intros i x E.
  - cbn [app] in *. destruct i; cbn [advance] in E.
    + injection E as <-. reflexivity.
    + rewrite (advance_finished r2 F2) in E. discriminate.
  - unfold finished in H. cbn in H. subst T0. cbn [app] in *.
    destruct i; cbn [advance] in E; [discriminate|].
    destruct (advance i (r1 ++ (t, ev :: rest) :: r2)) as [[[tag e] r']|] eqn:A;
      [|discriminate].
    apply IH in A. injection A as -> -> ->. injection E as <-. reflexivity.
Qed.

Lemma acknowledge_other ev u : acks [ev] = [] -> acknowledge ev u = u.
Proof. destruct ev; try reflexivity. discriminate. Qed.

Section OneAtATime.

Variable env : N -> Worker.Env.

Lemma step_deliver p s s' :
  step p env s Deliver = Some s' ->
  exists msg q,
    ready s = msg :: q /\ may_deliver p s = true
    /\ s' = {| ready := q;
               unacked := unacked s ++ [deliveryTag msg];
               running :=
                 running s
                 ++ [(deliveryTag msg,
                      fst (consumeCallback (env (deliveryTag msg))
                                           (Some msg)))];
               history := history s ++ [Begin (deliveryTag msg)] |}.
Proof.
  unfold step. destruct (ready s) as [|msg q]; [discriminate|].
  destruct (may_deliver p s); [|discriminate].
  intros E. exists msg, q. split; [reflexivity|]. split; [reflexivity|].
  injection E as <-. reflexivity.
Qed.

Lemma step_run p s i s' :
  step p env s (Run i) = Some s' ->
  exists tag ev r,
    advance i (running s) = Some (tag, ev, r)
    /\ s' = {| ready := ready s;
               unacked := acknowledge ev (unacked s);
               running := r;
               history := history s ++ [Did tag ev] |}.
Proof.
  unfold step. destruct (advance i (running s)) as [[[tag ev] r]|];
    [|discriminate].
  intros E. exists tag, ev, r. split; [reflexivity|].
  injection E as <-. reflexivity.
Qed.

Lemma step_steady s mv s' :
  step 1 env s mv = Some s' -> steady_state env s -> steady_state env s'.
Proof.
  intros S [Q C]. destruct mv as [|i].
  - apply step_deliver in S. destruct S as (msg & q & _ & M & ->).
    assert (U : unacked s = []).
    { unfold may_deliver in M. cbn [Nat.eqb orb] in M.
      apply Nat.ltb_lt in M. destruct (unacked s); [reflexivity|].
      cbn in M. lia. }
    assert (F : Forall finished (running s)).
    { destruct Q as [F|(r1 & tag & pre & r2 & _ & _ & _ & _ & I)]; [exact F|].
      rewrite U in I. destruct I. }
    pose proof (consumeCallback_shape (env (deliveryTag msg)) msg) as Sh.
    pose proof (consumeCallback_calm (env (deliveryTag msg)) msg) as Ca.
    cbv zeta in Sh.
    remember (fst (consumeCallback (env (deliveryTag msg)) (Some msg))) as T
      eqn:HT.
    assert (E1 : events_of (history s ++ [Begin (deliveryTag msg)])
                 = events_of (history s)).
    { rewrite events_of_app. apply app_nil_r. }
    assert (E2 : pending (running s ++ [(deliveryTag msg, T)]) = T).
    { rewrite pending_app, (pending_finished _ F). unfold pending.
      cbn [map snd List.concat app]. apply app_nil_r. }
    rewrite (pending_finished _ F), app_nil_r in C.
    unfold steady_state, quiet. cbn [history running unacked].
    rewrite E1, E2.
    split; [|intros K; apply calm_app; [apply C, K|apply Ca, K]].
    destruct Sh as [E|(pre & E & A)]; rewrite E.
    + left. apply Forall_app. split; [exact F|]. repeat constructor.
    + right. exists (running s), (deliveryTag msg), pre, [].
      repeat split; auto. rewrite U. left. reflexivity.
  - apply step_run in S. destruct S as (tag & ev & r & A & ->).
    destruct Q as [F|(r1 & t & pre & r2 & R & F1 & F2 & Ap & I)].
    { rewrite (advance_finished _ F) in A. discriminate. }
    rewrite R in A, C.
    assert (P : forall T, pending (r1 ++ (t, T) :: r2) = T).
    { intros T. change ((t, T) :: r2) with ([(t, T)] ++ r2).
      rewrite !pending_app, (pending_finished _ F1), (pending_finished _ F2).
      unfold pending. cbn [map snd List.concat app]. rewrite !app_nil_r.
      reflexivity. }
    rewrite P in C.
    unfold steady_state, quiet. cbn [history running unacked].
    rewrite events_of_app. cbn [events_of flat_map app].
    destruct pre as [|e0 pre'].
    + cbn [app] in A, C. apply (advance_active r1 t _ [] r2 i _ F1 F2) in A.
      injection A as -> -> ->.
      rewrite P, app_nil_r.
      split; [|exact C]. left.
      apply Forall_app. split; [exact F1|]. constructor; [reflexivity|exact F2].
    + cbn [app] in A, C.
      apply (advance_active r1 t e0 (pre' ++ [Ack t]) r2 i _ F1 F2) in A.
      injection A as -> -> ->.
      rewrite P, <- app_assoc. cbn [app].
      unfold acks in Ap. cbn [flat_map] in Ap. apply app_eq_nil in Ap.
      destruct Ap as [Ae Ap].
      split; [|exact C]. right.
      exists r1, t, pre', r2. repeat split; auto.
      rewrite acknowledge_other; [exact I|].
      unfold acks. cbn [flat_map]. rewrite Ae. reflexivity.
Qed.

Lemma run_steady ms : forall s s',
  run 1 env s ms = Some s' -> steady_state env s -> steady_state env s'.
Proof.
  induction ms as [|m ms IH]; intros s s' R I; cbn [run] in R.
  - injection R as <-. exact I.
  - destruct (step 1 env s m) as [s1|] eqn:S; [|discriminate].
    apply (IH s1 s' R). exact (step_steady s m s1 S I).
Qed.

End OneAtATime.

Lemma quiet_unfinished s : quiet s -> (unfinished (running s) <= 1)%nat.
Proof.
  intros [F|(r1 & t & pre & r2 & R & F1 & F2 & _)].
  - rewrite (unfinished_finished _ F). lia.
  - rewrite R, unfinished_app. change ((t, pre ++ [Ack t]) :: r2)
      with ([(t, pre ++ [Ack t])] ++ r2).
    rewrite unfinished_app, (unfinished_finished _ F1),
      (unfinished_finished _ F2).
    unfold unfinished. cbn. destruct (pre ++ [Ack t]); cbn; lia.
Qed.

(** X14: in every execution of the broker and the consumer set up by
    [startWorker], whatever the queue holds (malformed entries included)
    and however the calls interleave, at most one invocation of the
    callback is under way; and when every call of [kill] succeeds, at
    most one Chrome is alive at any time. *)
Theorem worker_one_chrome cenv env queue ms s :
  returns (startWorker cenv) = true ->
  run (prefetch_of (fst (startWorker cenv))) env (initial queue) ms = Some s ->
  (unfinished (running s) <= 1)%nat
  /\ ((forall tag, chrome_kill (env tag) = true) ->
      at_most_one_chrome 0 (events_of (history s)) = true).
Proof.
  intros W R. rewrite (startWorker_prefetch cenv W) in R.
  assert (I : steady_state env (initial queue)).
  { split; [left; constructor|intros _; apply calm_nil]. }
  destruct (run_steady env ms _ _ R I) as [Q C].
  split; [apply quiet_unfinished, Q|].
  intros K. destruct (C K) as [C1 _].
  rewrite at_most_one_chrome_app in C1. apply andb_prop in C1. tauto.
Qed.

(** Two entries, the audit of the first throws. *)
Lemma worker_one_chrome_witness :
  (unfinished
     [(1%N, []);
      (2%N, fst (consumeCallback env_analysis_fails
                   (Some example_message_2)))] <= 1)%nat
  /\ at_most_one_chrome 0 (events_of (history_two ++ [Begin 2])) = true.
Proof.
  destruct (worker_one_chrome conn_ok (fun _ => env_analysis_fails)
              [example_message; example_message_2] schedule_two
              {| ready := [];
                 unacked := [2%N];
                 running :=
                   [(1%N, []);
                    (2%N, fst (consumeCallback env_analysis_fails
                                 (Some example_message_2)))];
                 history := history_two ++ [Begin 2] |}
              eq_refl ltac:(vm_compute; reflexivity)) as [U C].
  split; [exact U|]. apply C. intros tag. reflexivity.
Defined.

(* ------------------------------------------------------------------ *)
(** ** Draining the queue *)

Lemma advance_at r1 t ev rest r2 :
  advance (List.length r1) (r1 ++ (t, ev :: rest) :: r2)
  = Some (t, ev, r1 ++ (t, rest) :: r2).
Proof.
  induction r1 as [|[t0 T0] r1 IH]; [reflexivity|].
  cbn [List.length app advance]. rewrite IH. destruct T0; reflexivity.
Qed.

Lemma run_app p env s ms1 ms2 :
  run p env s (ms1 ++ ms2)
  = match run p env s ms1 with
    | Some s' => run p env s' ms2
    | None => None
    end.
Proof.
  revert s. induction ms1 as [|m ms1 IH]; intros s; [reflexivity|].
  cbn [app run]. destruct (step p env s m); [apply IH|reflexivity].
Qed.

(** The invocation at the end of [r1] runs through the calls [T]. *)
Lemma run_invocation p env r1 t r2 (T : trace) :
  forall q u h,
  run p env {| ready := q; unacked := u;
               running := r1 ++ (t, T) :: r2; history := h |}
      (repeat (Run (List.length r1)) (List.length T))
  = Some {| ready := q;
            unacked := fold_left (fun u ev => acknowledge ev u) T u;
            running := r1 ++ (t, []) :: r2;
            history := h ++ map (Did t) T |}.
Proof.
  induction T as [|ev T IH]; intros q u h.
  - cbn. rewrite app_nil_r. reflexivity.
  - cbn [List.length repeat run step running].
    rewrite advance_at. cbn [ready unacked history].
    rewrite IH. cbn [fold_left map]. rewrite <- app_assoc. reflexivity.
Qed.

Lemma fold_acknowledge_none (T : trace) (u : list N) :
  acks T = [] -> fold_left (fun u ev => acknowledge ev u) T u = u.
Proof.
  revert u. induction T as [|ev T IH]; intros u A; [reflexivity|].
  unfold acks in A. cbn [flat_map] in A. apply app_eq_nil in A.
  destruct A as [A1 A2]. cbn [fold_left].
  rewrite acknowledge_other; [apply IH, A2|].
  unfold acks. cbn [flat_map]. rewrite A1. reflexivity.
Qed.

Lemma events_of_map_Did (t : N) (T : trace) :
  events_of (map (Did t) T) = T.
Proof.
  induction T as [|ev T IH]; [reflexivity|].
  cbn [map events_of flat_map app] in *. unfold events_of in IH.
  rewrite IH. reflexivity.
Qed.

Lemma well_formed_trace env m :
  well_formed m ->
  exists pre,
    fst (consumeCallback env (Some m)) = pre ++ [Ack (deliveryTag m)]
    /\ acks pre = [].
Proof.
  intros (v & P & Hv & Hp). rewrite (consumeCallback_parsed env m v P Hv Hp).
  destruct (attempt_trace env (get (js "url") v) (get (js "chatId") v))
    as (A & _).
  eexists (ConsoleLog :: _). split; [reflexivity|exact A].
Qed.

Lemma drain_from env (queue : list Message) :
  Forall well_formed queue ->
  forall r h,
  exists s,
    run 1 env {| ready := queue; unacked := []; running := r; history := h |}
        (drain env (List.length r) queue) = Some s
    /\ ready s = [] /\ unacked s = []
    /\ running s = r ++ map (fun m => (deliveryTag m, [])) queue
    /\ acks (events_of (history s))
       = acks (events_of h) ++ map deliveryTag queue.
Proof.
  induction 1 as [|m q W _ IH]; intros r h.
  - eexists. split; [reflexivity|]. cbn [ready unacked running history map].
    rewrite !app_nil_r. repeat split.
  - destruct (well_formed_trace (env (deliveryTag m)) m W) as (pre & E & A).
    cbn [drain]. cbn [run].
    assert (S1 : step 1 env
                   {| ready := m :: q; unacked := []; running := r;
                      history := h |} Deliver
                 = Some {| ready := q; unacked := [deliveryTag m];
                           running := r ++ [(deliveryTag m,
                                             pre ++ [Ack (deliveryTag m)])];
                           history := h ++ [Begin (deliveryTag m)] |}).
    { unfold step. cbn [ready unacked running history may_deliver
                        Nat.eqb orb List.length Nat.ltb Nat.leb app].
      rewrite E. reflexivity. }
    rewrite S1, run_app, E.
    rewrite (run_invocation 1 env r (deliveryTag m) []).
    rewrite fold_left_app, (fold_acknowledge_none pre _ A).
    cbn [fold_left acknowledge filter]. rewrite N.eqb_refl. cbn [negb].
    destruct (IH (r ++ [(deliveryTag m, [])])
                 ((h ++ [Begin (deliveryTag m)])
                  ++ map (Did (deliveryTag m))
                         (pre ++ [Ack (deliveryTag m)])))
      as (s & R & S2 & S3 & S4 & S5).
    rewrite length_app in R. cbn [List.length] in R.
    rewrite Nat.add_1_r in R.
    exists s. split; [exact R|]. split; [exact S2|]. split; [exact S3|].
    split.
    + rewrite S4, <- app_assoc. reflexivity.
    + rewrite S5, !events_of_app, events_of_map_Did.
      cbn [events_of flat_map app]. rewrite app_nil_r.
      unfold acks in *. rewrite !flat_map_app, A. cbn [flat_map app map].
      rewrite <- app_assoc. reflexivity.
Qed.

(** X15: when every entry of the queue carries JSON other than [null]
    whose [url] and [chatId] can be put into the log line, delivering the entries one by one and letting each callback run to
    its end empties the queue: the moves are all possible under the
    prefetch count of [startWorker], no delivery stays unacknowledged,
    no callback stays under way, and the entries are acknowledged once
    each, in the order of the queue, whatever failed while they were
    processed. *)
Theorem queue_drained cenv env queue :
  returns (startWorker cenv) = true ->
  Forall well_formed queue ->
  exists s,
    run (prefetch_of (fst (startWorker cenv))) env (initial queue)
        (drain env 0 queue) = Some s
    /\ ready s = [] /\ unacked s = []
    /\ unfinished (running s) = 0%nat
    /\ acks (events_of (history s)) = map deliveryTag queue.
Proof.
  intros W F. rewrite (startWorker_prefetch cenv W).
  destruct (drain_from env queue F [] []) as (s & R & S2 & S3 & S4 & S5).
  exists s. split; [exact R|]. split; [exact S2|]. split; [exact S3|].
  split; [|exact S5].
  rewrite S4. apply unfinished_finished.
  apply Forall_forall. intros x Hx. cbn [app] in Hx.
  apply in_map_iff in Hx. destruct Hx as (m & <- & _). reflexivity.
Qed.

(** Two entries whose audits throw are both acknowledged. *)
Lemma queue_drained_witness :
  exists s,
    run 1 (fun _ => env_analysis_fails)
        (initial [example_message; example_message_2])
        (drain (fun _ => env_analysis_fails) 0
               [example_message; example_message_2]) = Some s
    /\ ready s = [] /\ unacked s = []
    /\ unfinished (running s) = 0%nat
    /\ acks (events_of (history s)) = [1%N; 2%N].
Proof.
  refine (queue_drained conn_ok (fun _ => env_analysis_fails)
            [example_message; example_message_2] _ _).
  - reflexivity.
  - repeat constructor;
      (eexists; split; [vm_compute; reflexivity|];
       split; [discriminate|reflexivity]).
Defined.
